(** * NarrowMind S2: a shallow embedding of the TF-IDF sentence ranker

    The development follows [src/model.js] (the stemmed [NarrowMindModel],
    the second class of the file) and the stand-alone stemming utility.

    Modelling conventions.
    - A JavaScript string is a Rocq [string]; each character is one UTF-16
      code unit in the range U+0000..U+00FF (Latin-1), so [String.length] is
      the JavaScript [length].  The Unicode classes [\p{L}], [\p{N}], the
      white space stripped by [trim] and [toLowerCase] are written out for
      that range.
    - A JavaScript number is an exact real ([R]); [Math.log] is [ln] and
      [Math.sqrt] is [sqrt].  Module [Double] repeats the numeric methods
      over IEEE binary64, the numbers JavaScript computes with, to show
      where rounding departs from exact arithmetic.
    - The [Map] held in [idfCache] is a [gmap string R].
    - Methods that call [getIDF] write the cache, so they take a model and
      return their result together with the model after the call. *)

From Stdlib Require Import Floats.
From Stdlib Require Import Reals Lra Lia ZArith Ascii String List Permutation Sorted.
From stdpp Require Import gmap strings list fin_maps.

(** ** Strings *)

Module Str.

Definition code (c : ascii) : nat := nat_of_ascii c.

Definition in_range (lo hi : nat) (c : ascii) : bool :=
  (lo <=? code c)%nat && (code c <=? hi)%nat.

(** [String.prototype.toLowerCase], Latin-1 range: A-Z, U+00C0..U+00D6
    and U+00D8..U+00DE move up by 32. *)
Definition lower_char (c : ascii) : ascii :=
  if in_range 65 90 c || in_range 192 214 c || in_range 216 222 c
  then ascii_of_nat (code c + 32)
  else c.

Fixpoint toLowerCase (s : string) : string :=
  match s with
  | EmptyString => EmptyString
  | String c s' => String (lower_char c) (toLowerCase s')
  end.

(** [s.endsWith(suffix)] *)
Definition endsWith (s suffix : string) : bool :=
  (String.length suffix <=? String.length s)%nat &&
  String.eqb
    (String.substring (String.length s - String.length suffix)
                      (String.length suffix) s)
    suffix.

(** [s.slice(0, -n)] for [n > 0] *)
Definition slice_drop_end (s : string) (n : nat) : string :=
  String.substring 0 (String.length s - n) s.

(** JavaScript truthiness of a string: [Boolean(s)] *)
Definition truthy (s : string) : bool :=
  negb (String.eqb s EmptyString).

End Str.

(** ** The stemmer *)

Definition rule : Type := string * nat * option string.

(** The [suffixes] array of [stemWord]: [suffix, minLength, replacement]. *)
Definition suffixes : list rule :=
  [ ("ies", 4, Some "y");
    ("es", 4, None);
    ("s", 3, None);
    ("ing", 5, None);
    ("ed", 4, None);
    ("er", 4, None);
    ("est", 5, None);
    ("ly", 4, None);
    ("tion", 6, None);
    ("ness", 6, None);
    ("ment", 6, None) ]%nat.

(** The [for ... of suffixes] loop of [stemWord], with its early return. *)
Fixpoint stemLoop (rules : list rule) (lowerWord : string) : string :=
  match rules with
  | [] => lowerWord
  | (suffix, minLength, replacement) :: rest =>
      if Str.endsWith lowerWord suffix && (minLength <? String.length lowerWord)%nat
      then
        let stem := Str.slice_drop_end lowerWord (String.length suffix) in
        match replacement with
        | Some r => if Str.truthy r then stem +:+ r else stem
        | None => stem
        end
      else stemLoop rest lowerWord
  end.

Definition stemWord (word : string) : string :=
  if negb (Str.truthy word) || (String.length word <? 3)%nat then word
  else stemLoop suffixes (Str.toLowerCase word).

(** The stand-alone utility [stem(token)]: its own suffix list, the bound
    [suffix.length + 2], and no replacement. *)
Definition stem_suffixes : list string :=
  [ "ing"; "ed"; "er"; "est"; "ly"; "tion"; "sion";
    "ness"; "ment"; "able"; "ible"; "ful"; "less";
    "s"; "es"; "ies" ].

Fixpoint stem_loop (sufs : list string) (lowerToken : string) : string :=
  match sufs with
  | [] => lowerToken
  | suffix :: rest =>
      if Str.endsWith lowerToken suffix
         && (String.length suffix + 2 <? String.length lowerToken)%nat
      then Str.slice_drop_end lowerToken (String.length suffix)
      else stem_loop rest lowerToken
  end.

Definition stem (token : string) : string :=
  if negb (Str.truthy token) || (String.length token <? 3)%nat then token
  else stem_loop stem_suffixes (Str.toLowerCase token).

(** ** JavaScript values reaching the public methods *)

Inductive value : Type :=
| VUndefined
| VNull
| VBool (b : bool)
| VNumber (x : R)
| VString (s : string)
| VObject.

Inductive jstype : Type :=
| TUndefined | TObject | TBoolean | TNumber | TString.

Definition typeof (v : value) : jstype :=
  match v with
  | VUndefined => TUndefined
  | VNull => TObject
  | VBool _ => TBoolean
  | VNumber _ => TNumber
  | VString _ => TString
  | VObject => TObject
  end.

Definition jstype_eqb (a b : jstype) : bool :=
  match a, b with
  | TUndefined, TUndefined | TObject, TObject | TBoolean, TBoolean
  | TNumber, TNumber | TString, TString => true
  | _, _ => false
  end.

(** [Boolean(v)], the test behind [!v] *)
Definition truthy (v : value) : bool :=
  match v with
  | VUndefined | VNull => false
  | VBool b => b
  | VNumber x => if Req_dec_T x 0 then false else true
  | VString s => Str.truthy s
  | VObject => true
  end.

(** The guard [!text || typeof text !== 'string'] shared by the parsers
    and by [rankSentences]. *)
Definition rejected (text : value) : bool :=
  negb (truthy text) || negb (jstype_eqb (typeof text) TString).

Definition string_of (v : value) : string :=
  match v with
  | VString s => s
  | _ => EmptyString
  end.

(** ** Tokenizer *)

Module Tok.

(** [\p{L}] on U+0000..U+00FF *)
Definition is_letter (c : ascii) : bool :=
  Str.in_range 65 90 c || Str.in_range 97 122 c
  || Str.in_range 170 170 c || Str.in_range 181 181 c
  || Str.in_range 186 186 c
  || Str.in_range 192 214 c || Str.in_range 216 246 c
  || Str.in_range 248 255 c.

(** [\p{N}] on U+0000..U+00FF *)
Definition is_number (c : ascii) : bool :=
  Str.in_range 48 57 c
  || Str.in_range 178 179 c || Str.in_range 185 185 c
  || Str.in_range 188 190 c.

(** The class [[^\p{L}\p{N}]] *)
Definition token_sep (c : ascii) : bool :=
  negb (is_letter c || is_number c).

(** The class of [parseSentences]: full stop, exclamation mark, question
    mark, comma, double quote, colon, semicolon and line feed *)
Definition sentence_sep (c : ascii) : bool :=
  existsb (Nat.eqb (Str.code c)) [46; 33; 63; 44; 34; 58; 59; 10]%nat.

(** White space and line terminators removed by [trim] *)
Definition is_space (c : ascii) : bool :=
  Str.in_range 9 13 c || Str.in_range 32 32 c || Str.in_range 160 160 c.

Fixpoint trimStart (s : string) : string :=
  match s with
  | EmptyString => EmptyString
  | String c s' => if is_space c then trimStart s' else s
  end.

Fixpoint trimEnd (s : string) : string :=
  match s with
  | EmptyString => EmptyString
  | String c s' =>
      let t := trimEnd s' in
      if is_space c && negb (Str.truthy t) then EmptyString else String c t
  end.

Definition trim (s : string) : string := trimEnd (trimStart s).

(** [s.split(/[sep]+/)]: the pieces between maximal runs of separator
    characters; a leading or trailing run leaves an empty piece, and the
    empty string gives one empty piece.  [cur] is the piece being read,
    [in_run] tells that the previous character was a separator. *)
Fixpoint split_go (sep : ascii -> bool) (cur : string) (in_run : bool)
         (s : string) : list string :=
  match s with
  | EmptyString => [cur]
  | String c s' =>
      if sep c then
        if in_run then split_go sep EmptyString true s'
        else cur :: split_go sep EmptyString true s'
      else split_go sep (cur +:+ String c EmptyString) false s'
  end.

Definition split (sep : ascii -> bool) (s : string) : list string :=
  split_go sep EmptyString false s.

End Tok.

Definition parseTokens (text : value) : list string :=
  if rejected text then []
  else List.filter Str.truthy (Tok.split Tok.token_sep (Tok.trim (string_of text))).

Definition parseTokensStemmed (text : value) : list string :=
  if rejected text then []
  else
    let tokens := parseTokens text in
    List.map (fun token => stemWord (Str.toLowerCase token)) tokens.

Definition parseSentences (text : value) : list string :=
  if rejected text then []
  else
    List.filter Str.truthy
      (List.map Tok.trim (Tok.split Tok.sentence_sep (string_of text))).

(** ** Term and document frequency *)

(** [wordList.filter(w => w === token).length] *)
Definition occurrences (token : string) (wordList : list string) : nat :=
  List.length (List.filter (fun w => String.eqb w token) wordList).

Definition calculateTF (token : string) (wordList : list string) : R :=
  if (List.length wordList =? 0)%nat then 0%R
  else (INR (occurrences token wordList) / INR (List.length wordList))%R.

(** [doc.includes(token)] *)
Definition includes (doc : list string) (token : string) : bool :=
  existsb (fun w => String.eqb w token) doc.

(** [documents.filter(doc => doc.includes(token)).length] *)
Definition docFrequency (token : string) (documents : list (list string)) : nat :=
  List.length (List.filter (fun doc => includes doc token) documents).

Definition calculateIDF (token : string) (documents : list (list string)) : R :=
  if (List.length documents =? 0)%nat then 0%R
  else
    let N := List.length documents in
    let df := docFrequency token documents in
    (ln ((INR N + 1) / (INR df + 1)) + 1)%R.

(** ** Insertion-ordered sets: [[...new Set(xs)]] *)

Definition Set_add (s : list string) (x : string) : list string :=
  if existsb (String.eqb x) s then s else s ++ [x].

Definition new_Set (xs : list string) : list string :=
  fold_left Set_add xs [].

(** ** The model object *)

Record NarrowMindModel : Type := mkModel {
  rawData : value;
  tokens : list string;
  sentences : list string;
  corpusDocs : list (list string);
  idfCache : gmap string R
}.

Definition set_idfCache (c : gmap string R) (m : NarrowMindModel) : NarrowMindModel :=
  {| rawData := rawData m; tokens := tokens m; sentences := sentences m;
     corpusDocs := corpusDocs m; idfCache := c |}.

(** [precomputeIDF], run by the constructor once [corpusDocs] is set. *)
Definition precomputeIDF (docs : list (list string)) : gmap string R :=
  let allTokens := new_Set (List.concat docs) in
  fold_left (fun idfMap token => <[token := calculateIDF token docs]> idfMap)
            allTokens (∅ : gmap string R).

Definition constructor (data : value) : NarrowMindModel :=
  let tokens := parseTokens data in
  let sentences := parseSentences data in
  let corpusDocs := List.map (fun s => parseTokensStemmed (VString s)) sentences in
  {| rawData := data; tokens := tokens; sentences := sentences;
     corpusDocs := corpusDocs; idfCache := precomputeIDF corpusDocs |}.

(** ** Methods that write the cache: a state monad over the model *)

Definition M (A : Type) : Type := NarrowMindModel -> A * NarrowMindModel.

#[global] Instance M_ret : MRet M := fun A (a : A) m => (a, m).

#[global] Instance M_bind : MBind M :=
  fun A B (k : A -> M B) (c : M A) m => let (a, m') := c m in k a m'.

(** [xs.map(f)] where [f] goes through the model *)
Fixpoint mapM {A B} (f : A -> M B) (xs : list A) : M (list B) :=
  match xs with
  | [] => mret []
  | x :: xs' => y ← f x; ys ← mapM f xs'; mret (y :: ys)
  end.

Definition getIDF (token : string) : M R :=
  fun m =>
    match idfCache m !! token with
    | Some v => (v, m)
    | None =>
        let idf := calculateIDF token (corpusDocs m) in
        (idf, set_idfCache (<[token := idf]> (idfCache m)) m)
    end.

(** [vec.reduce((sum, val, i) => f(sum, val, i), init)] *)
Fixpoint reduce_from (f : R -> R -> nat -> R) (vec : list R) (i : nat) (sum : R) : R :=
  match vec with
  | [] => sum
  | val :: vec' => reduce_from f vec' (S i) (f sum val i)
  end.

Definition reduce (f : R -> R -> nat -> R) (vec : list R) (init : R) : R :=
  reduce_from f vec 0%nat init.

(** [vec[i]]; both vectors are maps of the same vocabulary, so the index
    is always in range. *)
Definition at_index (vec : list R) (i : nat) : R := default 0%R (vec !! i).

Definition dotProduct (vec1 vec2 : list R) : R :=
  reduce (fun sum val i => (sum + val * at_index vec2 i)%R) vec1 0%R.

Definition magnitude (vec : list R) : R :=
  sqrt (reduce (fun sum val _ => (sum + val * val)%R) vec 0%R).

(** [vocab.map(token => this.calculateTF(token, words) * this.getIDF(token))] *)
Definition tfidfVector (words vocab : list string) : M (list R) :=
  mapM (fun token => idf ← getIDF token; mret (calculateTF token words * idf)%R) vocab.

Definition calculateTFIDFSimilarity (sentence1 sentence2 : value) : M R :=
  let words1 := parseTokensStemmed sentence1 in
  let words2 := parseTokensStemmed sentence2 in
  if (List.length words1 =? 0)%nat || (List.length words2 =? 0)%nat then mret 0%R
  else
    let vocab := new_Set (words1 ++ words2) in
    vec1 ← tfidfVector words1 vocab;
    vec2 ← tfidfVector words2 vocab;
    let dot := dotProduct vec1 vec2 in
    let mag1 := magnitude vec1 in
    let mag2 := magnitude vec2 in
    if Req_dec_T mag1 0 then mret 0%R
    else if Req_dec_T mag2 0 then mret 0%R
    else mret (dot / (mag1 * mag2))%R.

(** ** Ranking *)

Definition entry : Type := string * R.

(** The comparator [(a, b) => b[1] - a[1]] *)
Definition compareFn (a b : entry) : R := (snd b - snd a)%R.

(** [Array.prototype.sort(compareFn)]: a stable sort; [x] is moved behind
    [y] only when [compareFn(x, y) > 0]. *)
Fixpoint sort_insert (x : entry) (l : list entry) : list entry :=
  match l with
  | [] => [x]
  | y :: l' =>
      if Rlt_dec 0 (compareFn x y) then y :: sort_insert x l' else x :: l
  end.

Definition Array_sort (l : list entry) : list entry :=
  foldr sort_insert [] l.

(** The [for (const sentence of this.sentences)] loop; [sentenceRanks] is
    the array being pushed to. *)
Fixpoint rankLoop (query : value) (ss : list string) (sentenceRanks : list entry)
  : M (list entry) :=
  match ss with
  | [] => mret sentenceRanks
  | sentence :: ss' =>
      similarity ← calculateTFIDFSimilarity query (VString sentence);
      if Rlt_dec 0 similarity
      then rankLoop query ss' (sentenceRanks ++ [(sentence, similarity)])
      else rankLoop query ss' sentenceRanks
  end.

(** [rankSentences(query, topN)]; an omitted [topN] is [0]. *)
Definition rankSentences (query : value) (topN : Z) : M (list entry) :=
  fun m =>
    if rejected query then ([], m)
    else
      let (sentenceRanks, m') := rankLoop query (sentences m) [] m in
      let sorted := Array_sort sentenceRanks in
      ((if (0 <? topN)%Z then firstn (Z.to_nat topN) sorted else sorted), m').

(** ** Diagnostics *)

Definition getTF (m : NarrowMindModel) (token : string) : R :=
  let stemmedToken := stemWord (Str.toLowerCase token) in
  let stemmedTokens := parseTokensStemmed (rawData m) in
  calculateTF stemmedToken stemmedTokens.

Record TokenStats : Type := mkStats {
  stat_token : string;
  stat_tf : R;
  stat_idf : R
}.

Definition getTokenStats (token : string) : M TokenStats :=
  fun m =>
    let normalizedToken := Str.toLowerCase token in
    let stemmedToken := stemWord normalizedToken in
    let tf := getTF m normalizedToken in
    let (idf, m') := getIDF stemmedToken m in
    ({| stat_token := stemmedToken; stat_tf := tf; stat_idf := idf |}, m').

(** ** The numeric methods over IEEE binary64

    The same methods with JavaScript's own numbers.  Addition,
    multiplication, division and [Math.sqrt] are the correctly rounded
    binary64 operations.  [Math.log] is implementation-approximated, so it
    is an argument [Math_log]; ECMAScript fixes only special values of it,
    among them [Math.log(1) = +0]. *)

Module Double.

(** An array length or a count as a number *)
Definition number_of_nat (n : nat) : float :=
  PrimFloat.of_uint63 (Uint63.of_Z (Z.of_nat n)).

Definition calculateTF (token : string) (wordList : list string) : float :=
  if (List.length wordList =? 0)%nat then 0%float
  else (number_of_nat (occurrences token wordList)
        / number_of_nat (List.length wordList))%float.

Definition calculateIDF (Math_log : float -> float)
           (token : string) (documents : list (list string)) : float :=
  if (List.length documents =? 0)%nat then 0%float
  else
    let N := List.length documents in
    let df := docFrequency token documents in
    (Math_log ((number_of_nat N + 1) / (number_of_nat df + 1)) + 1)%float.

Record Model : Type := mkModel {
  rawData : value;
  tokens : list string;
  sentences : list string;
  corpusDocs : list (list string);
  idfCache : gmap string float
}.

Definition set_idfCache (c : gmap string float) (m : Model) : Model :=
  {| rawData := rawData m; tokens := tokens m; sentences := sentences m;
     corpusDocs := corpusDocs m; idfCache := c |}.

Definition precomputeIDF (Math_log : float -> float)
           (docs : list (list string)) : gmap string float :=
  let allTokens := new_Set (List.concat docs) in
  fold_left (fun idfMap token => <[token := calculateIDF Math_log token docs]> idfMap)
            allTokens (∅ : gmap string float).

Definition constructor (Math_log : float -> float) (data : value) : Model :=
  let tokens := parseTokens data in
  let sentences := parseSentences data in
  let corpusDocs := List.map (fun s => parseTokensStemmed (VString s)) sentences in
  {| rawData := data; tokens := tokens; sentences := sentences;
     corpusDocs := corpusDocs; idfCache := precomputeIDF Math_log corpusDocs |}.

Definition getIDF (Math_log : float -> float) (token : string) (m : Model)
  : float * Model :=
  match idfCache m !! token with
  | Some v => (v, m)
  | None =>
      let idf := calculateIDF Math_log token (corpusDocs m) in
      (idf, set_idfCache (<[token := idf]> (idfCache m)) m)
  end.

Fixpoint reduce_from (f : float -> float -> nat -> float)
         (vec : list float) (i : nat) (sum : float) : float :=
  match vec with
  | [] => sum
  | val :: vec' => reduce_from f vec' (S i) (f sum val i)
  end.

Definition reduce (f : float -> float -> nat -> float)
           (vec : list float) (init : float) : float :=
  reduce_from f vec 0%nat init.

Definition at_index (vec : list float) (i : nat) : float :=
  default PrimFloat.nan (vec !! i).

Definition dotProduct (vec1 vec2 : list float) : float :=
  reduce (fun sum val i => (sum + val * at_index vec2 i)%float) vec1 0%float.

Definition magnitude (vec : list float) : float :=
  PrimFloat.sqrt (reduce (fun sum val _ => (sum + val * val)%float) vec 0%float).

Fixpoint tfidfVector (Math_log : float -> float) (words vocab : list string)
         (m : Model) : list float * Model :=
  match vocab with
  | [] => ([], m)
  | token :: vocab' =>
      let (idf, m1) := getIDF Math_log token m in
      let (rest, m2) := tfidfVector Math_log words vocab' m1 in
      ((calculateTF token words * idf)%float :: rest, m2)
  end.

Definition calculateTFIDFSimilarity (Math_log : float -> float)
           (sentence1 sentence2 : value) (m : Model) : float * Model :=
  let words1 := parseTokensStemmed sentence1 in
  let words2 := parseTokensStemmed sentence2 in
  if (List.length words1 =? 0)%nat || (List.length words2 =? 0)%nat then (0%float, m)
  else
    let vocab := new_Set (words1 ++ words2) in
    let (vec1, m1) := tfidfVector Math_log words1 vocab m in
    let (vec2, m2) := tfidfVector Math_log words2 vocab m1 in
    let dot := dotProduct vec1 vec2 in
    let mag1 := magnitude vec1 in
    let mag2 := magnitude vec2 in
    if PrimFloat.eqb mag1 0 || PrimFloat.eqb mag2 0 then (0%float, m2)
    else ((dot / (mag1 * mag2))%float, m2).

End Double.

(** ** The superseded class

    The first [NarrowMindModel] of [src/model.js] has no stemmer: its
    [getTF] looks the lower-cased token up in [this.tokens], the raw tokens
    of the text. *)

Module Unstemmed.

Definition getTF (m : NarrowMindModel) (token : string) : R :=
  calculateTF (Str.toLowerCase token) (tokens m).

End Unstemmed.

(** ** Specification-level definitions

    These follow the words of the specification; the theorems below compare
    them with the methods above. *)

(** The reference rule table of the specification. *)
Definition reference_rules : list rule :=
  [ ("ies", 4, Some "y"); ("es", 4, None); ("s", 3, None);
    ("ing", 5, None); ("ed", 4, None); ("er", 4, None);
    ("est", 5, None); ("ly", 4, None); ("tion", 6, None);
    ("ness", 6, None); ("ment", 6, None) ]%nat.

(** A rule matches when the lower-cased word ends with the suffix and its
    length strictly exceeds the minimum length. *)
Definition rule_matches (lowerWord : string) (r : rule) : Prop :=
  (∃ stem, lowerWord = stem +:+ r.1.1) ∧ (r.1.2 < String.length lowerWord)%nat.

(** [result] is the outcome of the rule table on [lowerWord]: the first
    matching rule strips its suffix and appends its replacement, and with
    no matching rule the word is kept. *)
Definition table_outcome (lowerWord result : string) : Prop :=
  (∃ (i : nat) (r : rule) (stem : string),
      reference_rules !! i = Some r
      ∧ lowerWord = stem +:+ r.1.1
      ∧ (r.1.2 < String.length lowerWord)%nat
      ∧ (∀ (j : nat) (r' : rule),
            (j < i)%nat → reference_rules !! j = Some r' → ¬ rule_matches lowerWord r')
      ∧ result = stem +:+ default EmptyString r.2)
  ∨ ((∀ r, r ∈ reference_rules → ¬ rule_matches lowerWord r)
     ∧ result = lowerWord).

(** The number of occurrences of a token in a token stream. *)
Definition count (token : string) (stream : list string) : nat :=
  count_occ string_dec stream token.

(** The value [getIDF] hands out for a token in a given model: the cached
    entry when there is one, the computed value otherwise. *)
Definition idfOf (m : NarrowMindModel) (token : string) : R :=
  match idfCache m !! token with
  | Some v => v
  | None => calculateIDF token (corpusDocs m)
  end.

(** [m'] is [m] after some calls of [getIDF]: the text, the sentences and
    the documents are those of [m], every entry of the cache of [m] is
    kept, and [getIDF] hands out the same values. *)
Definition extends (m m' : NarrowMindModel) : Prop :=
  rawData m' = rawData m
  ∧ tokens m' = tokens m
  ∧ sentences m' = sentences m
  ∧ corpusDocs m' = corpusDocs m
  ∧ (∀ t v, idfCache m !! t = Some v → idfCache m' !! t = Some v)
  ∧ (∀ t, idfOf m' t = idfOf m t).

Definition Rsum (l : list R) : R := foldr Rplus 0%R l.

(** The TF-IDF vector of a word list over a vocabulary, read off a model. *)
Definition weights (m : NarrowMindModel) (words vocab : list string) : list R :=
  List.map (fun token => (calculateTF token words * idfOf m token)%R) vocab.

(** The score [calculateTFIDFSimilarity] returns, as a function of the
    model it is called on. *)
Definition similarityOf (m : NarrowMindModel) (sentence1 sentence2 : value) : R :=
  fst (calculateTFIDFSimilarity sentence1 sentence2 m).

(** The cosine of the two TF-IDF vectors of two word lists, read off a
    model without writing its cache. *)
Definition cosine (m : NarrowMindModel) (words1 words2 : list string) : R :=
  if (List.length words1 =? 0)%nat || (List.length words2 =? 0)%nat then 0%R
  else
    let vocab := new_Set (words1 ++ words2) in
    let vec1 := weights m words1 vocab in
    let vec2 := weights m words2 vocab in
    if Req_dec_T (magnitude vec1) 0 then 0%R
    else if Req_dec_T (magnitude vec2) 0 then 0%R
    else (dotProduct vec1 vec2 / (magnitude vec1 * magnitude vec2))%R.

(** The pairs [rankSentences] keeps before sorting: each sentence with a
    strictly positive score, in document order. *)
Definition scoredSentences (m : NarrowMindModel) (query : value) : list entry :=
  List.filter (fun e => if Rlt_dec 0 (snd e) then true else false)
    (List.map (fun sentence => (sentence, similarityOf m query (VString sentence)))
              (sentences m)).

(** Scores in descending order. *)
Definition descending (l : list entry) : Prop :=
  StronglySorted (fun a b => (snd b <= snd a)%R) l.

(** ** Definitions for the further properties *)

(** Every character of a string passes a test. *)
Fixpoint all_chars (p : ascii -> bool) (s : string) : bool :=
  match s with
  | EmptyString => true
  | String c s' => p c && all_chars p s'
  end.

(** A letter or a digit: what the tokenizer keeps. *)
Definition is_alnum (c : ascii) : bool := Tok.is_letter c || Tok.is_number c.

(** The non-empty pieces of a split, as [filter(Boolean)] leaves them. *)
Definition pieces (sep : ascii -> bool) (cur : string) (in_run : bool)
           (s : string) : list string :=
  List.filter Str.truthy (Tok.split_go sep cur in_run s).

(** The suffix list of the stand-alone [stem] without its last two
    entries. *)
Definition stem_live_suffixes : list string :=
  [ "ing"; "ed"; "er"; "est"; "ly"; "tion"; "sion";
    "ness"; "ment"; "able"; "ible"; "ful"; "less"; "s" ].

(** One call of a method of the model that can write the cache. *)
Inductive step : NarrowMindModel -> NarrowMindModel -> Prop :=
| step_getIDF (token : string) (m : NarrowMindModel) :
    step m (snd (getIDF token m))
| step_similarity (sentence1 sentence2 : value) (m : NarrowMindModel) :
    step m (snd (calculateTFIDFSimilarity sentence1 sentence2 m))
| step_rank (query : value) (topN : Z) (m : NarrowMindModel) :
    step m (snd (rankSentences query topN m))
| step_stats (token : string) (m : NarrowMindModel) :
    step m (snd (getTokenStats token m)).

(** The models a program can hold: the one the constructor builds from
    [data], and what calls of the methods make of it. *)
Inductive reachable (data : value) : NarrowMindModel -> Prop :=
| reach_new : reachable data (constructor data)
| reach_step (m m' : NarrowMindModel) :
    reachable data m -> step m m' -> reachable data m'.

(** Two spans have a stemmed token in common. *)
Definition shares_token (span1 span2 : string) : Prop :=
  ∃ t, t ∈ parseTokensStemmed (VString span1) ∧ t ∈ parseTokensStemmed (VString span2).

(** * Properties *)

(** ** Strings *)

Section StringFacts.

Lemma substring_all (s : string) :
  String.substring 0 (String.length s) s = s.
Proof. induction s as [|c s IH]; simpl; [reflexivity | now rewrite IH]. Qed.

Lemma substring_app_suffix (a b : string) :
  String.substring (String.length a) (String.length b) (a +:+ b) = b.
Proof. induction a as [|c a IH]; simpl; [apply substring_all | exact IH]. Qed.

Lemma substring_app_prefix (a b : string) :
  String.substring 0 (String.length a) (a +:+ b) = a.
Proof.
  induction a as [|c a IH]; simpl.
  - destruct b; reflexivity.
  - now rewrite IH.
Qed.

Lemma string_length_app (a b : string) :
  String.length (a +:+ b) = (String.length a + String.length b)%nat.
Proof. induction a as [|c a IH]; simpl; [reflexivity | now rewrite IH]. Qed.

Lemma substring_cut (n : nat) (s : string) :
  (n <= String.length s)%nat →
  s = String.substring 0 n s +:+ String.substring n (String.length s - n) s.
Proof.
  revert n; induction s as [|c s IH]; intros n Hn; simpl in *.
  - destruct n; [reflexivity | lia].
  - destruct n as [|n]; simpl.
    + now rewrite substring_all.
    + change (String c s = String c (String.substring 0 n s
                 +:+ String.substring n (String.length s - n) s)).
      f_equal. apply IH. lia.
Qed.

Lemma endsWith_true (s suffix : string) :
  Str.endsWith s suffix = true ↔ ∃ stem, s = stem +:+ suffix.
Proof.
  unfold Str.endsWith. rewrite andb_true_iff, Nat.leb_le, String.eqb_eq. split.
  - intros [Hlen Hsub].
    exists (String.substring 0 (String.length s - String.length suffix) s).
    pose proof (substring_cut (String.length s - String.length suffix) s) as E.
    replace (String.length s - (String.length s - String.length suffix))%nat
      with (String.length suffix) in E by lia.
    rewrite Hsub in E. apply E. lia.
  - intros [stem ->]. rewrite string_length_app. split; [lia |].
    replace (String.length stem + String.length suffix - String.length suffix)%nat
      with (String.length stem) by lia.
    apply substring_app_suffix.
Qed.

Lemma slice_drop_end_app (stem suffix : string) :
  Str.slice_drop_end (stem +:+ suffix) (String.length suffix) = stem.
Proof.
  unfold Str.slice_drop_end. rewrite string_length_app.
  replace (String.length stem + String.length suffix - String.length suffix)%nat
    with (String.length stem) by lia.
  apply substring_app_prefix.
Qed.

Lemma app_empty_r (a : string) : a +:+ EmptyString = a.
Proof.
  induction a as [|c a IH]; [reflexivity |].
  change (String c (a +:+ EmptyString) = String c a). now rewrite IH.
Qed.

Lemma length_toLowerCase (s : string) :
  String.length (Str.toLowerCase s) = String.length s.
Proof. induction s as [|c s IH]; simpl; [reflexivity | now rewrite IH]. Qed.

Lemma truthy_false (s : string) : Str.truthy s = false ↔ s = EmptyString.
Proof.
  unfold Str.truthy. rewrite negb_false_iff. apply String.eqb_eq.
Qed.

End StringFacts.

(** ** The stemmer *)

Section Stemmer.

Lemma rule_matches_dec (lowerWord : string) (r : rule) :
  Str.endsWith lowerWord r.1.1 && (r.1.2 <? String.length lowerWord)%nat = true
  ↔ rule_matches lowerWord r.
Proof.
  unfold rule_matches.
  rewrite andb_true_iff, endsWith_true, Nat.ltb_lt. reflexivity.
Qed.

(** The loop over a rule list returns what the first matching rule gives,
    and the word itself when none matches. *)
Lemma stemLoop_outcome (rules : list rule) (lowerWord : string) :
  (∃ (i : nat) (r : rule) (stem : string),
      rules !! i = Some r
      ∧ lowerWord = stem +:+ r.1.1
      ∧ (r.1.2 < String.length lowerWord)%nat
      ∧ (∀ (j : nat) (r' : rule),
            (j < i)%nat → rules !! j = Some r' → ¬ rule_matches lowerWord r')
      ∧ stemLoop rules lowerWord = stem +:+ default EmptyString r.2)
  ∨ ((∀ r, r ∈ rules → ¬ rule_matches lowerWord r)
     ∧ stemLoop rules lowerWord = lowerWord).
Proof.
  induction rules as [|[[suffix minLength] replacement] rest IH]; simpl.
  - right. split; [|reflexivity]. intros r Hr. inversion Hr.
  - destruct (Str.endsWith lowerWord suffix
              && (minLength <? String.length lowerWord)%nat) eqn:Hm.
    + left.
      apply (rule_matches_dec lowerWord (suffix, minLength, replacement)) in Hm as Hrm.
      destruct Hrm as [[stem Hstem] Hlen]. simpl in Hstem, Hlen.
      exists 0%nat, (suffix, minLength, replacement), stem. simpl.
      repeat split; try assumption.
      * intros j r' Hj. lia.
      * rewrite Hstem. rewrite slice_drop_end_app.
        destruct replacement as [r|]; simpl.
        -- destruct (Str.truthy r) eqn:Hr; [reflexivity |].
           apply truthy_false in Hr. subst r. now rewrite app_empty_r.
        -- now rewrite app_empty_r.
    + assert (Hno : ¬ rule_matches lowerWord (suffix, minLength, replacement)).
      { intros Hrm. apply rule_matches_dec in Hrm. simpl in Hrm. congruence. }
      destruct IH as [(i & r & stem & Hi & Hs & Hl & Hprev & Hres) | [Hnone Hres]].
      * left. exists (S i), r, stem. simpl. repeat split; try assumption.
        intros [|j] r' Hj Hr'; simpl in Hr'.
        -- now inversion Hr'; subst.
        -- apply (Hprev j); [lia | assumption].
      * right. split; [|assumption].
        intros r Hr. apply elem_of_cons in Hr as [-> | Hr]; [assumption | now apply Hnone].
Qed.

Lemma rules_agree : suffixes = reference_rules.
Proof. reflexivity. Qed.

Lemma stemWord_long (w : string) :
  (3 <= String.length w)%nat → stemWord w = stemLoop suffixes (Str.toLowerCase w).
Proof.
  intros Hlen. unfold stemWord.
  destruct (Str.truthy w) eqn:Ht.
  - simpl. destruct (Nat.ltb_spec (String.length w) 3); [lia | reflexivity].
  - apply truthy_false in Ht. subst w. simpl in Hlen. lia.
Qed.

Lemma stemWord_short (w : string) :
  (String.length w < 3)%nat → stemWord w = w.
Proof.
  intros Hlen. unfold stemWord.
  destruct (Nat.ltb_spec (String.length w) 3); [|lia].
  now rewrite orb_true_r.
Qed.

Lemma stem_short (w : string) :
  (String.length w < 3)%nat → stem w = w.
Proof.
  intros Hlen. unfold stem.
  destruct (Nat.ltb_spec (String.length w) 3); [|lia].
  now rewrite orb_true_r.
Qed.

(** No rule of the table can match a word shorter than four characters. *)
Lemma short_no_match (lowerWord : string) (r : rule) :
  (String.length lowerWord < 4)%nat → r ∈ reference_rules → ¬ rule_matches lowerWord r.
Proof.
  intros Hlen Hr [_ Hmin]. unfold reference_rules in Hr.
  repeat (apply elem_of_cons in Hr as [-> | Hr]; [simpl in Hmin; lia |]).
  inversion Hr.
Qed.

(** C3 (amended): on every word of at least three characters, and on
    every word that is already lower-case, [stemWord] returns the outcome
    of the ordered reference rule table applied to the lower-cased word:
    a rule matches iff the lower-cased word ends with its suffix and is
    strictly longer than its minimum length, the first matching rule
    strips the suffix and appends the replacement, and without a match the
    lower-cased word is returned.  In particular running gives runn, cats
    gives cat, flies gives fly and faster gives fast. *)
Theorem stemWord_rule_table (w : string)
  (Hw : (3 <= String.length w)%nat ∨ Str.toLowerCase w = w) :
  table_outcome (Str.toLowerCase w) (stemWord w)
  ∧ stemWord "running" = "runn"
  ∧ stemWord "cats" = "cat"
  ∧ stemWord "flies" = "fly"
  ∧ stemWord "faster" = "fast".
Proof.
  split; [|repeat split; reflexivity].
  unfold table_outcome. rewrite <- rules_agree.
  destruct (le_lt_dec 3 (String.length w)) as [Hlong | Hshort].
  - rewrite (stemWord_long w Hlong). apply stemLoop_outcome.
  - destruct Hw as [Hw | Hw]; [lia |].
    right. rewrite (stemWord_short w Hshort). split; [|now symmetry].
    intros r Hr. rewrite rules_agree in Hr. apply short_no_match; [|assumption].
    rewrite length_toLowerCase. lia.
Qed.

Lemma stemWord_rule_table_witness :
  table_outcome (Str.toLowerCase "Flies") (stemWord "Flies")
  ∧ stemWord "running" = "runn"
  ∧ stemWord "cats" = "cat"
  ∧ stemWord "flies" = "fly"
  ∧ stemWord "faster" = "fast".
Proof. apply (stemWord_rule_table "Flies"). left. simpl. lia. Defined.

(** C3 as stated fails on a short word that is not lower-case: no rule
    matches the lower-cased word, and yet the word comes back as given. *)
Lemma stemWord_rule_table_counterexample :
  stemWord "Ox" = "Ox"
  ∧ ¬ table_outcome (Str.toLowerCase "Ox") (stemWord "Ox").
Proof.
  split; [reflexivity |].
  intros [(i & r & stem & Hi & Hs & Hlen & _) | [_ Hres]].
  - apply list_elem_of_lookup_2 in Hi.
    apply (short_no_match (Str.toLowerCase "Ox") r) in Hi; [|simpl; lia].
    apply Hi. split; [|assumption].
    exists stem. assumption.
  - discriminate Hres.
Qed.

(** C8 (amended): a word shorter than three characters is returned as it
    was given, by [stemWord] and by the stand-alone [stem]; the result is
    the lower-cased word exactly when the word was lower-case already. *)
Theorem stemWord_short_unchanged (w : string)
  (Hw : (String.length w < 3)%nat) :
  stemWord w = w ∧ stem w = w
  ∧ (stemWord w = Str.toLowerCase w ↔ Str.toLowerCase w = w).
Proof.
  rewrite (stemWord_short w Hw), (stem_short w Hw).
  repeat split; intros H; now symmetry.
Qed.

Lemma stemWord_short_unchanged_witness :
  stemWord "AB" = "AB" ∧ stem "AB" = "AB"
  ∧ (stemWord "AB" = Str.toLowerCase "AB" ↔ Str.toLowerCase "AB" = "AB").
Proof. apply (stemWord_short_unchanged "AB"). simpl. lia. Defined.

(** C8 as stated fails: a short upper-case word is not lower-cased. *)
Lemma stemWord_short_counterexample :
  (String.length "AB" < 3)%nat ∧ stemWord "AB" ≠ Str.toLowerCase "AB"
  ∧ stem "AB" ≠ Str.toLowerCase "AB".
Proof. repeat split; [simpl; lia | discriminate | discriminate]. Qed.

(** The stand-alone [stem] has another table: its [s] entry comes before
    [es] and [ies], which are never reached, and it has no replacement. *)
Example stem_flies : stem "flies" = "flie" ∧ stemWord "flies" = "fly".
Proof. split; reflexivity. Qed.

(** The [s] rule comes before the [ness] rule. *)
Example stemWord_happiness : stemWord "happiness" = "happines".
Proof. reflexivity. Qed.

Example parseSentences_example :
  parseSentences (VString "The cat sat. The dog ran fast.")
  = ["The cat sat"; "The dog ran fast"].
Proof. reflexivity. Qed.

Example parseTokensStemmed_example :
  parseTokensStemmed (VString " The cats, sat.Flies ") = ["the"; "cat"; "sat"; "fly"].
Proof. reflexivity. Qed.

Example split_example :
  Tok.split Tok.sentence_sep ".a..b." = [""; "a"; "b"; ""].
Proof. reflexivity. Qed.

End Stemmer.

(** ** Term frequency and inverse document frequency *)

Section Frequencies.

Local Open Scope R_scope.

Lemma ln_le (x y : R) : 0 < x → x <= y → ln x <= ln y.
Proof.
  intros Hx [Hlt | ->]; [|lra].
  left. now apply ln_increasing.
Qed.

Lemma div_le_intro (a b c : R) : 0 < b → a <= c * b → a / b <= c.
Proof.
  intros Hb H. apply (Rmult_le_reg_r b); [assumption |].
  unfold Rdiv. rewrite Rmult_assoc, Rinv_l by lra. lra.
Qed.

Lemma div_ge_intro (a b c : R) : 0 < b → c * b <= a → c <= a / b.
Proof.
  intros Hb H. apply (Rmult_le_reg_r b); [assumption |].
  unfold Rdiv. rewrite Rmult_assoc, Rinv_l by lra. lra.
Qed.

Lemma div_mul_cancel (a b : R) : 0 < b → a / b * b = a.
Proof. intros Hb. unfold Rdiv. rewrite Rmult_assoc, Rinv_l by lra. lra. Qed.

Lemma docFrequency_le (t : string) (docs : list (list string)) :
  (docFrequency t docs <= List.length docs)%nat.
Proof. unfold docFrequency. apply List.filter_length_le. Qed.

Lemma calculateIDF_nonempty (t : string) (docs : list (list string)) :
  docs ≠ [] →
  calculateIDF t docs
  = ln ((INR (List.length docs) + 1) / (INR (docFrequency t docs) + 1)) + 1.
Proof.
  intros Hne. unfold calculateIDF.
  destruct docs as [|d docs]; [congruence | reflexivity].
Qed.

Lemma calculateIDF_empty (t : string) : calculateIDF t [] = 0.
Proof. reflexivity. Qed.

Lemma calculateIDF_ge_1 (t : string) (docs : list (list string)) :
  docs ≠ [] → 1 <= calculateIDF t docs.
Proof.
  intros Hne. rewrite calculateIDF_nonempty by assumption.
  pose proof (docFrequency_le t docs) as Hdf. apply le_INR in Hdf.
  pose proof (pos_INR (docFrequency t docs)) as Hpos.
  assert (0 <= ln ((INR (List.length docs) + 1) / (INR (docFrequency t docs) + 1))).
  { rewrite <- ln_1. apply ln_le; [lra |].
    apply div_ge_intro; lra. }
  lra.
Qed.

Lemma calculateIDF_nonneg (t : string) (docs : list (list string)) :
  0 <= calculateIDF t docs.
Proof.
  destruct docs as [|d docs]; [rewrite calculateIDF_empty; lra |].
  assert (1 <= calculateIDF t (d :: docs)) by (now apply calculateIDF_ge_1). lra.
Qed.

(** C4 (amended): for every token and every corpus with at least one
    document, [calculateIDF] is [ln((N+1)/(df+1)) + 1], it is strictly
    positive (at least 1) and at most [ln(N+1) + 1], and it does not
    increase when the document frequency grows with [N] fixed. *)
Theorem calculateIDF_bounds (t : string) (docs : list (list string))
  (Hne : docs ≠ []) :
  calculateIDF t docs
  = ln ((INR (List.length docs) + 1) / (INR (docFrequency t docs) + 1)) + 1
  ∧ 0 < calculateIDF t docs
  ∧ calculateIDF t docs <= ln (INR (List.length docs) + 1) + 1
  ∧ (∀ (t' : string) (docs' : list (list string)),
        List.length docs' = List.length docs →
        (docFrequency t docs <= docFrequency t' docs')%nat →
        calculateIDF t' docs' <= calculateIDF t docs).
Proof.
  pose proof (pos_INR (List.length docs)) as HN.
  pose proof (pos_INR (docFrequency t docs)) as Hdf.
  split; [now apply calculateIDF_nonempty |].
  split; [pose proof (calculateIDF_ge_1 t docs Hne); lra |].
  split.
  - rewrite calculateIDF_nonempty by assumption.
    apply Rplus_le_compat_r. apply ln_le.
    + apply Rdiv_lt_0_compat; lra.
    + apply div_le_intro; [lra |]. nra.
  - intros t' docs' Hlen Hle.
    assert (Hne' : docs' ≠ []).
    { intros ->. destruct docs; [congruence | discriminate]. }
    rewrite !calculateIDF_nonempty by assumption. rewrite Hlen.
    apply le_INR in Hle. pose proof (pos_INR (docFrequency t' docs')) as Hdf'.
    apply Rplus_le_compat_r. apply ln_le.
    + apply Rdiv_lt_0_compat; lra.
    + apply div_le_intro; [lra |].
      assert (Hq : 0 < (INR (List.length docs) + 1) / (INR (docFrequency t docs) + 1))
        by (apply Rdiv_lt_0_compat; lra).
      pose proof (div_mul_cancel (INR (List.length docs) + 1)
                    (INR (docFrequency t docs) + 1)) as Hc.
      nra.
Qed.

Lemma calculateIDF_bounds_witness :
  calculateIDF "cat" [["the"; "cat"; "sat"]; ["the"; "dog"]]
  = ln ((INR 2 + 1) / (INR (docFrequency "cat" [["the"; "cat"; "sat"]; ["the"; "dog"]]) + 1)) + 1
  ∧ 0 < calculateIDF "cat" [["the"; "cat"; "sat"]; ["the"; "dog"]].
Proof.
  destruct (calculateIDF_bounds "cat" [["the"; "cat"; "sat"]; ["the"; "dog"]])
    as (H1 & H2 & _); [discriminate |].
  split; assumption.
Defined.

(** C4 as stated fails on the empty corpus, which the constructor builds
    from a text without sentences: there [getIDF] answers 0. *)
Lemma calculateIDF_counterexample :
  corpusDocs (constructor (VString "")) = []
  ∧ calculateIDF "cat" (corpusDocs (constructor (VString ""))) = 0
  ∧ ¬ (0 < calculateIDF "cat" (corpusDocs (constructor (VString "")))).
Proof.
  split; [reflexivity |]. split; [reflexivity |].
  change (¬ (0 < 0)). lra.
Qed.

Lemma occurrences_count (t : string) (l : list string) :
  occurrences t l = count t l.
Proof.
  unfold occurrences, count. induction l as [|w l IH]; simpl; [reflexivity |].
  destruct (String.eqb_spec w t) as [-> | Hne].
  - destruct (string_dec t t); [simpl; now rewrite IH | congruence].
  - destruct (string_dec w t); [congruence | exact IH].
Qed.

End Frequencies.

(** ** The cache and the state it threads *)

Section Cache.

Local Open Scope R_scope.

Lemma extends_refl (m : NarrowMindModel) : extends m m.
Proof. repeat split; auto. Qed.

Lemma extends_trans (m1 m2 m3 : NarrowMindModel) :
  extends m1 m2 → extends m2 m3 → extends m1 m3.
Proof.
  intros (Hr & Ht & Hs & Hd & Hc & Hi) (Hr' & Ht' & Hs' & Hd' & Hc' & Hi').
  unfold extends. split; [congruence |]. split; [congruence |].
  split; [congruence |]. split; [congruence |]. split.
  - intros t v Hv. apply Hc', Hc, Hv.
  - intros t. now rewrite Hi', Hi.
Qed.

Lemma getIDF_value (t : string) (m : NarrowMindModel) :
  fst (getIDF t m) = idfOf m t.
Proof. unfold getIDF, idfOf. now destruct (idfCache m !! t). Qed.

Lemma getIDF_extends (t : string) (m : NarrowMindModel) :
  extends m (snd (getIDF t m)).
Proof.
  unfold getIDF. destruct (idfCache m !! t) as [v|] eqn:E; simpl.
  - apply extends_refl.
  - repeat split; simpl.
    + intros t' v Hv. rewrite lookup_insert_ne; [assumption | congruence].
    + intros t'. unfold idfOf; simpl.
      destruct (decide (t = t')) as [<- | Hne].
      * now rewrite lookup_insert_eq, E.
      * now rewrite lookup_insert_ne.
Qed.

Lemma getIDF_cached (t : string) (m : NarrowMindModel) :
  idfCache (snd (getIDF t m)) !! t = Some (fst (getIDF t m)).
Proof.
  unfold getIDF. destruct (idfCache m !! t) as [v|] eqn:E; simpl.
  - assumption.
  - apply lookup_insert_eq.
Qed.

Lemma getIDF_hit (t : string) (v : R) (m : NarrowMindModel) :
  idfCache m !! t = Some v → getIDF t m = (v, m).
Proof. intros H. unfold getIDF. now rewrite H. Qed.

Lemma weights_ext (m m' : NarrowMindModel) (words vocab : list string) :
  (∀ t, idfOf m' t = idfOf m t) → weights m' words vocab = weights m words vocab.
Proof.
  intros H. unfold weights. apply List.map_ext. intros t. now rewrite H.
Qed.

Lemma cosine_ext (m m' : NarrowMindModel) (words1 words2 : list string) :
  (∀ t, idfOf m' t = idfOf m t) → cosine m' words1 words2 = cosine m words1 words2.
Proof.
  intros H. unfold cosine. now rewrite !(weights_ext m m') by assumption.
Qed.

Lemma tfidfVector_spec (words vocab : list string) (m : NarrowMindModel) :
  fst (tfidfVector words vocab m) = weights m words vocab
  ∧ extends m (snd (tfidfVector words vocab m)).
Proof.
  revert m. induction vocab as [|t vocab IH]; intros m.
  - split; [reflexivity | apply extends_refl].
  - unfold tfidfVector in *. simpl. unfold mbind, M_bind, mret, M_ret in *.
    pose proof (getIDF_value t m) as Hv. pose proof (getIDF_extends t m) as He.
    destruct (getIDF t m) as [idf m1]. simpl in Hv, He.
    specialize (IH m1) as [IHv IHe].
    destruct (mapM _ vocab m1) as [ys m2]. simpl in IHv, IHe. simpl.
    split.
    + rewrite Hv, IHv. f_equal. apply weights_ext, He.
    + eapply extends_trans; eassumption.
Qed.

Lemma similarity_spec (sentence1 sentence2 : value) (m : NarrowMindModel) :
  fst (calculateTFIDFSimilarity sentence1 sentence2 m)
  = cosine m (parseTokensStemmed sentence1) (parseTokensStemmed sentence2)
  ∧ extends m (snd (calculateTFIDFSimilarity sentence1 sentence2 m)).
Proof.
  unfold calculateTFIDFSimilarity, cosine.
  set (words1 := parseTokensStemmed sentence1).
  set (words2 := parseTokensStemmed sentence2).
  destruct ((List.length words1 =? 0)%nat || (List.length words2 =? 0)%nat).
  - split; [reflexivity | apply extends_refl].
  - unfold mbind, M_bind, mret, M_ret.
    set (vocab := new_Set (words1 ++ words2)).
    destruct (tfidfVector_spec words1 vocab m) as [Hv1 He1].
    destruct (tfidfVector words1 vocab m) as [vec1 m1]. simpl in Hv1, He1.
    destruct (tfidfVector_spec words2 vocab m1) as [Hv2 He2].
    destruct (tfidfVector words2 vocab m1) as [vec2 m2]. simpl in Hv2, He2.
    rewrite (weights_ext m m1) in Hv2 by apply He1.
    subst vec1 vec2. simpl.
    assert (He : extends m m2) by (eapply extends_trans; eassumption).
    destruct (Req_dec_T (magnitude (weights m words1 vocab)) 0); [now split |].
    destruct (Req_dec_T (magnitude (weights m words2 vocab)) 0); now split.
Qed.

Lemma similarityOf_ext (m m' : NarrowMindModel) (a b : value) :
  (∀ t, idfOf m' t = idfOf m t) → similarityOf m' a b = similarityOf m a b.
Proof.
  intros H. unfold similarityOf.
  rewrite (proj1 (similarity_spec a b m')), (proj1 (similarity_spec a b m)).
  now apply cosine_ext.
Qed.

End Cache.

(** ** Vocabularies, sums and vectors *)

Section Vectors.

Local Open Scope R_scope.

Lemma existsb_eqb_elem (x : string) (s : list string) :
  existsb (String.eqb x) s = true ↔ x ∈ s.
Proof.
  rewrite existsb_exists. split.
  - intros (y & Hy & Heq). apply String.eqb_eq in Heq. subst y.
    now apply list_elem_of_In.
  - intros Hx. exists x. split; [now apply list_elem_of_In | apply String.eqb_refl].
Qed.

Lemma Set_add_fold (l acc : list string) :
  NoDup acc →
  NoDup (fold_left Set_add l acc)
  ∧ (∀ x, x ∈ fold_left Set_add l acc ↔ x ∈ acc ∨ x ∈ l).
Proof.
  revert acc. induction l as [|y l IH]; intros acc Hnd; simpl.
  - split; [assumption |]. intros x. rewrite elem_of_nil. tauto.
  - unfold Set_add at 2 4.
    destruct (existsb (String.eqb y) acc) eqn:E.
    + apply existsb_eqb_elem in E.
      destruct (IH acc Hnd) as [Hn Hm]. split; [assumption |].
      intros x. rewrite Hm, elem_of_cons. split; [tauto |].
      intros [H | [-> | H]]; tauto.
    + assert (Hy : y ∉ acc).
      { intros Hin. apply existsb_eqb_elem in Hin. congruence. }
      assert (Hnd' : NoDup (acc ++ [y])).
      { apply NoDup_app. split; [assumption |]. split.
        - intros x Hx Hx'. apply list_elem_of_singleton in Hx'. now subst.
        - apply NoDup_singleton. }
      destruct (IH (acc ++ [y]) Hnd') as [Hn Hm]. split; [assumption |].
      intros x. rewrite Hm, elem_of_app, list_elem_of_singleton, elem_of_cons. tauto.
Qed.

Lemma new_Set_NoDup (l : list string) : NoDup (new_Set l).
Proof. apply (Set_add_fold l []). constructor. Qed.

Lemma new_Set_elem (l : list string) (x : string) : x ∈ new_Set l ↔ x ∈ l.
Proof.
  unfold new_Set. rewrite (proj2 (Set_add_fold l [] (NoDup_nil_2))).
  rewrite elem_of_nil. tauto.
Qed.

(** The two argument orders give the same vocabulary up to its order. *)
Lemma new_Set_swap (a b : list string) :
  Permutation (new_Set (a ++ b)) (new_Set (b ++ a)).
Proof.
  apply NoDup_Permutation; try apply new_Set_NoDup.
  intros x. rewrite !new_Set_elem, !elem_of_app. tauto.
Qed.

Lemma Rsum_perm (l l' : list R) : Permutation l l' → Rsum l = Rsum l'.
Proof.
  induction 1 as [| x l l' _ IH | x y l | l1 l2 l3 _ IH1 _ IH2]; simpl.
  - reflexivity.
  - now rewrite IH.
  - lra.
  - now rewrite IH1.
Qed.

Lemma Rsum_nonneg (l : list R) : Forall (fun x => 0 <= x) l → 0 <= Rsum l.
Proof.
  induction 1 as [|x l Hx _ IH]; simpl; lra.
Qed.

Lemma reduce_from_sum (h : R → R) (vec : list R) (i : nat) (acc : R) :
  reduce_from (fun sum val _ => sum + h val) vec i acc = acc + Rsum (List.map h vec).
Proof.
  revert i acc. induction vec as [|v vec IH]; intros i acc; simpl.
  - lra.
  - rewrite IH. lra.
Qed.

Lemma reduce_from_dot {A : Type} (f g : A → R) (l : list A) (pre : list R) (acc : R) :
  reduce_from (fun sum val i => sum + val * at_index (pre ++ List.map g l) i)
              (List.map f l) (List.length pre) acc
  = acc + Rsum (List.map (fun t => f t * g t) l).
Proof.
  revert pre acc. induction l as [|x l IH]; intros pre acc; simpl.
  - lra.
  - replace (pre ++ g x :: List.map g l) with ((pre ++ [g x]) ++ List.map g l)
      by (now rewrite <- app_assoc).
    replace (S (List.length pre)) with (List.length (pre ++ [g x]))
      by (rewrite List.length_app; simpl; lia).
    rewrite IH. simpl.
    unfold at_index at 1.
    rewrite <- app_assoc. simpl. rewrite list_lookup_middle by reflexivity.
    simpl. lra.
Qed.

Lemma dotProduct_map {A : Type} (f g : A → R) (l : list A) :
  dotProduct (List.map f l) (List.map g l) = Rsum (List.map (fun t => f t * g t) l).
Proof.
  unfold dotProduct, reduce.
  pose proof (reduce_from_dot f g l [] 0) as H. simpl in H.
  rewrite H. lra.
Qed.

Lemma magnitude_map {A : Type} (f : A → R) (l : list A) :
  magnitude (List.map f l) = sqrt (Rsum (List.map (fun t => f t * f t) l)).
Proof.
  unfold magnitude, reduce.
  rewrite (reduce_from_sum (fun v => v * v)). rewrite List.map_map.
  f_equal. lra.
Qed.

Lemma Rsum_squares_nonneg {A : Type} (f : A → R) (l : list A) :
  0 <= Rsum (List.map (fun t => f t * f t) l).
Proof.
  apply Rsum_nonneg. apply Forall_forall. intros x Hx.
  apply list_elem_of_In, in_map_iff in Hx as (t & <- & _). nra.
Qed.

Lemma cauchy_schwarz {A : Type} (x y : A → R) (l : list A) :
  Rsum (List.map (fun t => x t * y t) l) * Rsum (List.map (fun t => x t * y t) l)
  <= Rsum (List.map (fun t => x t * x t) l) * Rsum (List.map (fun t => y t * y t) l).
Proof.
  induction l as [|t l IH]; simpl; [lra |].
  pose proof (Rsum_squares_nonneg x l) as HA.
  pose proof (Rsum_squares_nonneg y l) as HB.
  set (a := Rsum (List.map (fun t => x t * y t) l)) in *.
  set (SA := Rsum (List.map (fun t => x t * x t) l)) in *.
  set (SB := Rsum (List.map (fun t => y t * y t) l)) in *.
  assert (Hmix : 2 * a * (x t * y t) <= SA * (y t * y t) + SB * (x t * x t)).
  { destruct (Req_dec SA 0) as [H0 | Hn0].
    - rewrite H0 in *. assert (a = 0) by nra. subst a. nra.
    - assert (0 < SA) by lra.
      pose proof (Rle_0_sqr (SA * y t - a * x t)) as Hsq. unfold Rsqr in Hsq.
      assert (0 <= SA * (SA * (y t * y t) + SB * (x t * x t) - 2 * a * (x t * y t)))
        by nra.
      nra. }
  nra.
Qed.

End Vectors.

(** ** Cosine similarity *)

Section Similarity.

Local Open Scope R_scope.

Lemma calculateTF_nonneg (t : string) (words : list string) :
  0 <= calculateTF t words.
Proof.
  unfold calculateTF. destruct words as [|w words]; simpl ((_ =? _)%nat); [lra |].
  apply div_ge_intro.
  - apply lt_0_INR. simpl. lia.
  - pose proof (pos_INR (occurrences t (w :: words))). lra.
Qed.

Lemma occurrences_pos (t : string) (words : list string) :
  t ∈ words → (0 < occurrences t words)%nat.
Proof.
  unfold occurrences. induction 1 as [t words | t w words _ IH]; simpl.
  - rewrite String.eqb_refl. simpl. lia.
  - destruct (String.eqb w t); simpl; lia.
Qed.

Lemma calculateTF_pos (t : string) (words : list string) :
  t ∈ words → 0 < calculateTF t words.
Proof.
  intros Hin. unfold calculateTF.
  destruct words as [|w words]; [inversion Hin |]. simpl ((_ =? _)%nat).
  apply Rdiv_lt_0_compat; apply lt_0_INR; [now apply occurrences_pos | simpl; lia].
Qed.

Lemma Rsum_pos (l : list R) (x : R) :
  Forall (fun y => 0 <= y) l → x ∈ l → 0 < x → 0 < Rsum l.
Proof.
  intros Hall Hin Hx. induction Hin as [x l | x y l Hin IH]; simpl.
  - apply Forall_cons in Hall as [_ Hl]. pose proof (Rsum_nonneg l Hl). lra.
  - apply Forall_cons in Hall as [Hy Hl]. specialize (IH Hl). lra.
Qed.

Lemma magnitude_weights (m : NarrowMindModel) (words vocab : list string) :
  magnitude (weights m words vocab)
  = sqrt (Rsum (List.map (fun t => (calculateTF t words * idfOf m t)
                                   * (calculateTF t words * idfOf m t)) vocab)).
Proof. unfold weights. apply magnitude_map. Qed.

Lemma dotProduct_weights (m : NarrowMindModel) (words1 words2 vocab : list string) :
  dotProduct (weights m words1 vocab) (weights m words2 vocab)
  = Rsum (List.map (fun t => (calculateTF t words1 * idfOf m t)
                             * (calculateTF t words2 * idfOf m t)) vocab).
Proof. unfold weights. apply dotProduct_map. Qed.

Lemma dotProduct_weights_nonneg (m : NarrowMindModel) (words1 words2 vocab : list string) :
  0 <= dotProduct (weights m words1 vocab) (weights m words2 vocab).
Proof.
  rewrite dotProduct_weights. apply Rsum_nonneg, Forall_forall. intros x Hx.
  apply list_elem_of_In, in_map_iff in Hx as (t & <- & _).
  pose proof (calculateTF_nonneg t words1). pose proof (calculateTF_nonneg t words2).
  assert (0 <= calculateTF t words1 * calculateTF t words2) by nra.
  nra.
Qed.

Lemma dotProduct_le_magnitudes (m : NarrowMindModel) (words1 words2 vocab : list string) :
  dotProduct (weights m words1 vocab) (weights m words2 vocab)
  <= magnitude (weights m words1 vocab) * magnitude (weights m words2 vocab).
Proof.
  pose proof (dotProduct_weights_nonneg m words1 words2 vocab) as Hd.
  rewrite !magnitude_weights. rewrite dotProduct_weights in *.
  set (x := fun t => calculateTF t words1 * idfOf m t).
  set (y := fun t => calculateTF t words2 * idfOf m t).
  pose proof (cauchy_schwarz x y vocab) as Hcs.
  pose proof (Rsum_squares_nonneg x vocab) as HA.
  pose proof (Rsum_squares_nonneg y vocab) as HB.
  change (Rsum (List.map (fun t => x t * y t) vocab)
          <= sqrt (Rsum (List.map (fun t => x t * x t) vocab))
             * sqrt (Rsum (List.map (fun t => y t * y t) vocab))).
  change (0 <= Rsum (List.map (fun t => x t * y t) vocab)) in Hd.
  rewrite <- sqrt_mult by assumption.
  rewrite <- (sqrt_square (Rsum (List.map (fun t => x t * y t) vocab))) by assumption.
  apply sqrt_le_1; [nra | nra | exact Hcs].
Qed.

Lemma cosine_range (m : NarrowMindModel) (words1 words2 : list string) :
  0 <= cosine m words1 words2 <= 1.
Proof.
  unfold cosine.
  destruct ((List.length words1 =? 0)%nat || (List.length words2 =? 0)%nat); [lra |].
  set (vocab := new_Set (words1 ++ words2)). cbv zeta.
  destruct (Req_dec_T (magnitude (weights m words1 vocab)) 0) as [|H1]; [lra |].
  destruct (Req_dec_T (magnitude (weights m words2 vocab)) 0) as [|H2]; [lra |].
  pose proof (sqrt_pos (reduce (fun sum val _ => sum + val * val)
                               (weights m words1 vocab) 0)) as Hp1.
  pose proof (sqrt_pos (reduce (fun sum val _ => sum + val * val)
                               (weights m words2 vocab) 0)) as Hp2.
  fold (magnitude (weights m words1 vocab)) in Hp1.
  fold (magnitude (weights m words2 vocab)) in Hp2.
  assert (Hpos : 0 < magnitude (weights m words1 vocab)
                     * magnitude (weights m words2 vocab)) by nra.
  pose proof (dotProduct_weights_nonneg m words1 words2 vocab).
  pose proof (dotProduct_le_magnitudes m words1 words2 vocab).
  split; [apply div_ge_intro | apply div_le_intro]; lra.
Qed.

Lemma magnitude_weights_perm (m : NarrowMindModel) (words v v' : list string) :
  Permutation v v' → magnitude (weights m words v) = magnitude (weights m words v').
Proof.
  intros Hp. rewrite !magnitude_weights. f_equal.
  apply Rsum_perm. now apply Permutation_map.
Qed.

Lemma dotProduct_weights_swap (m : NarrowMindModel) (words1 words2 v v' : list string) :
  Permutation v v' →
  dotProduct (weights m words1 v) (weights m words2 v)
  = dotProduct (weights m words2 v') (weights m words1 v').
Proof.
  intros Hp. rewrite !dotProduct_weights.
  rewrite (Rsum_perm _ _ (Permutation_map _ Hp)).
  f_equal. apply List.map_ext. intros t. lra.
Qed.

Lemma cosine_sym (m : NarrowMindModel) (words1 words2 : list string) :
  cosine m words1 words2 = cosine m words2 words1.
Proof.
  unfold cosine. rewrite (orb_comm (List.length words2 =? 0)%nat).
  destruct ((List.length words1 =? 0)%nat || (List.length words2 =? 0)%nat);
    [reflexivity |]. cbv zeta.
  pose proof (new_Set_swap words1 words2) as Hp.
  rewrite (magnitude_weights_perm m words1 _ _ Hp).
  rewrite (magnitude_weights_perm m words2 _ _ Hp).
  rewrite (dotProduct_weights_swap m words1 words2 _ _ Hp).
  destruct (Req_dec_T (magnitude (weights m words1 (new_Set (words2 ++ words1)))) 0);
    destruct (Req_dec_T (magnitude (weights m words2 (new_Set (words2 ++ words1)))) 0);
    try reflexivity.
  now rewrite Rmult_comm.
Qed.

Lemma cosine_self (m : NarrowMindModel) (words : list string) :
  words ≠ [] → (∀ t, t ∈ words → idfOf m t ≠ 0) → cosine m words words = 1.
Proof.
  intros Hne Hidf. unfold cosine.
  destruct words as [|w0 words'] eqn:Ew; [congruence |]. rewrite <- Ew in *.
  assert (Hlen : (List.length words =? 0)%nat = false) by (now rewrite Ew).
  rewrite Hlen. simpl orb. cbv zeta.
  set (vocab := new_Set (words ++ words)).
  rewrite dotProduct_weights, magnitude_weights.
  set (x := fun t => calculateTF t words * idfOf m t).
  change (fun t => calculateTF t words * idfOf m t * (calculateTF t words * idfOf m t))
    with (fun t => x t * x t).
  set (S := Rsum (List.map (fun t => x t * x t) vocab)).
  assert (HS : 0 < S).
  { assert (Hw0 : w0 ∈ words) by (rewrite Ew; left).
    apply (Rsum_pos _ (x w0 * x w0)).
    - apply Forall_forall. intros y Hy.
      apply list_elem_of_In, in_map_iff in Hy as (t & <- & _). nra.
    - apply list_elem_of_In, in_map_iff. exists w0. split; [reflexivity |].
      apply list_elem_of_In, new_Set_elem, elem_of_app. now left.
    - pose proof (calculateTF_pos w0 words Hw0). pose proof (Hidf w0 Hw0).
      assert (x w0 ≠ 0) by (unfold x; nra). nra. }
  pose proof (sqrt_lt_R0 S HS) as Hs.
  destruct (Req_dec_T (sqrt S) 0) as [H0 | _]; [lra |].
  rewrite sqrt_sqrt by lra. field. lra.
Qed.

Lemma calculateTF_absent (t : string) (words : list string) :
  t ∉ words → calculateTF t words = 0.
Proof.
  intros Hnot. unfold calculateTF.
  destruct (List.length words =? 0)%nat; [reflexivity |].
  assert (Hocc : occurrences t words = 0%nat).
  { unfold occurrences. induction words as [|w words IH]; [reflexivity |].
    apply not_elem_of_cons in Hnot as [Hne Hnot]. simpl.
    destruct (String.eqb_spec w t) as [-> | _]; [congruence | now apply IH]. }
  rewrite Hocc. simpl. unfold Rdiv. now rewrite Rmult_0_l.
Qed.

(** Spans without a common stemmed token score 0. *)
Lemma cosine_disjoint (m : NarrowMindModel) (words1 words2 : list string) :
  (∀ t, t ∈ words1 → t ∉ words2) → cosine m words1 words2 = 0.
Proof.
  intros Hdis. unfold cosine.
  destruct ((List.length words1 =? 0)%nat || (List.length words2 =? 0)%nat);
    [reflexivity |]. cbv zeta.
  destruct (Req_dec_T _ 0) as [|H1]; [reflexivity |].
  destruct (Req_dec_T _ 0) as [|H2]; [reflexivity |].
  rewrite dotProduct_weights.
  rewrite (List.map_ext _ (fun _ => 0)).
  - assert (Hz : ∀ l : list string, Rsum (List.map (fun _ => 0) l) = 0).
    { induction l as [|x l IH]; simpl; [reflexivity | rewrite IH; lra]. }
    rewrite Hz. unfold Rdiv. now rewrite Rmult_0_l.
  - intros t. destruct (decide (t ∈ words1)) as [Hin | Hout].
    + rewrite (calculateTF_absent t words2) by now apply Hdis. lra.
    + rewrite (calculateTF_absent t words1) by assumption. lra.
Qed.

(** Spans sharing a stemmed token of nonzero IDF score above 0. *)
Lemma cosine_shared (m : NarrowMindModel) (words1 words2 : list string) (t : string) :
  t ∈ words1 → t ∈ words2 → idfOf m t ≠ 0 → 0 < cosine m words1 words2.
Proof.
  intros Hin1 Hin2 Hidf. unfold cosine.
  assert (Hl1 : (List.length words1 =? 0)%nat = false).
  { destruct words1; [inversion Hin1 | reflexivity]. }
  assert (Hl2 : (List.length words2 =? 0)%nat = false).
  { destruct words2; [inversion Hin2 | reflexivity]. }
  rewrite Hl1, Hl2. simpl orb. cbv zeta.
  set (vocab := new_Set (words1 ++ words2)).
  assert (Hv : t ∈ vocab).
  { apply new_Set_elem, elem_of_app. now left. }
  pose proof (calculateTF_pos t words1 Hin1) as Ht1.
  pose proof (calculateTF_pos t words2 Hin2) as Ht2.
  assert (Hsq : 0 < idfOf m t * idfOf m t) by nra.
  assert (Hmag : ∀ words, t ∈ words → 0 < magnitude (weights m words vocab)).
  { intros words Hin. rewrite magnitude_weights. apply sqrt_lt_R0.
    pose proof (calculateTF_pos t words Hin) as Ht.
    apply (Rsum_pos _ (calculateTF t words * idfOf m t * (calculateTF t words * idfOf m t))).
    - apply Forall_forall. intros y Hy.
      apply list_elem_of_In, in_map_iff in Hy as (u & <- & _). nra.
    - apply list_elem_of_In, in_map_iff. exists t. split; [reflexivity |].
      now apply list_elem_of_In.
    - assert (0 < calculateTF t words * calculateTF t words) by nra. nra. }
  pose proof (Hmag words1 Hin1) as Hm1. pose proof (Hmag words2 Hin2) as Hm2.
  destruct (Req_dec_T _ 0) as [H0 | _]; [lra |].
  destruct (Req_dec_T _ 0) as [H0 | _]; [lra |].
  apply Rdiv_lt_0_compat; [|nra].
  rewrite dotProduct_weights.
  apply (Rsum_pos _ (calculateTF t words1 * idfOf m t * (calculateTF t words2 * idfOf m t))).
  - apply Forall_forall. intros y Hy.
    apply list_elem_of_In, in_map_iff in Hy as (u & <- & _).
    pose proof (calculateTF_nonneg u words1). pose proof (calculateTF_nonneg u words2).
    assert (0 <= calculateTF u words1 * calculateTF u words2) by nra. nra.
  - apply list_elem_of_In, in_map_iff. exists t. split; [reflexivity |].
    now apply list_elem_of_In.
  - assert (0 < calculateTF t words1 * calculateTF t words2) by nra. nra.
Qed.

(** What the constructor leaves in the cache is what [calculateIDF] gives. *)
Lemma fold_insert_lookup (F : string → R) (l : list string)
      (acc : gmap string R) (t : string) (v : R) :
  fold_left (fun idfMap token => <[token := F token]> idfMap) l acc !! t = Some v →
  acc !! t = Some v ∨ v = F t.
Proof.
  revert acc. induction l as [|x l IH]; intros acc H; simpl in H; [now left |].
  apply IH in H as [H | H]; [|now right].
  destruct (decide (x = t)) as [-> | Hne].
  - rewrite lookup_insert_eq in H. right. congruence.
  - rewrite lookup_insert_ne in H by assumption. now left.
Qed.

Lemma fold_insert_miss (F : string → R) (l : list string)
      (acc : gmap string R) (t : string) :
  t ∉ l → fold_left (fun idfMap token => <[token := F token]> idfMap) l acc !! t = acc !! t.
Proof.
  revert acc. induction l as [|x l IH]; intros acc Hin; simpl; [reflexivity |].
  apply not_elem_of_cons in Hin as [Hne Hin].
  rewrite IH by assumption. now apply lookup_insert_ne.
Qed.

Lemma precomputeIDF_lookup (docs : list (list string)) (t : string) (v : R) :
  precomputeIDF docs !! t = Some v → v = calculateIDF t docs.
Proof.
  unfold precomputeIDF. intros H.
  apply fold_insert_lookup in H as [H | H]; [|assumption].
  rewrite lookup_empty in H. discriminate.
Qed.

Lemma precomputeIDF_miss (docs : list (list string)) (t : string) :
  t ∉ List.concat docs → precomputeIDF docs !! t = None.
Proof.
  intros Hin. unfold precomputeIDF. rewrite fold_insert_miss.
  - apply lookup_empty.
  - now rewrite new_Set_elem.
Qed.

Lemma idfOf_constructor (data : value) (t : string) :
  idfOf (constructor data) t = calculateIDF t (corpusDocs (constructor data)).
Proof.
  unfold idfOf. destruct (idfCache (constructor data) !! t) as [v|] eqn:E; [|reflexivity].
  now apply precomputeIDF_lookup in E.
Qed.

(** What the method is meant to compute: in exact arithmetic the score of
    [calculateTFIDFSimilarity] lies in the interval from 0 to 1 for every
    pair of strings; it is exactly 0 when either stemmed token sequence is
    empty, and exactly 0 when either TF-IDF vector has magnitude 0. *)
Theorem similarity_range (m : NarrowMindModel) (spanA spanB : string) :
  let wordsA := parseTokensStemmed (VString spanA) in
  let wordsB := parseTokensStemmed (VString spanB) in
  let vocab := new_Set (wordsA ++ wordsB) in
  let score := fst (calculateTFIDFSimilarity (VString spanA) (VString spanB) m) in
  0 <= score <= 1
  ∧ (wordsA = [] ∨ wordsB = [] → score = 0)
  ∧ (magnitude (fst (tfidfVector wordsA vocab m)) = 0
     ∨ magnitude (fst (tfidfVector wordsB vocab m)) = 0 → score = 0).
Proof.
  cbv zeta. rewrite (proj1 (similarity_spec _ _ m)).
  rewrite !(proj1 (tfidfVector_spec _ _ m)).
  split; [apply cosine_range |]. unfold cosine. split.
  - intros [-> | ->]; [reflexivity |]. now rewrite orb_true_r.
  - intros Hmag.
    destruct ((List.length _ =? 0)%nat || (List.length _ =? 0)%nat); [reflexivity |].
    cbv zeta.
    destruct (Req_dec_T _ 0) as [|H1]; [reflexivity |].
    destruct (Req_dec_T _ 0) as [|H2]; [reflexivity |].
    destruct Hmag; contradiction.
Qed.

(** On a corpus without documents every IDF is 0, both vectors vanish and
    even a span compared with itself scores 0. *)
Example similarity_empty_corpus :
  similarityOf (constructor (VString "")) (VString "cat") (VString "cat") = 0.
Proof.
  unfold similarityOf. rewrite (proj1 (similarity_spec _ _ _)).
  unfold cosine.
  destruct ((List.length _ =? 0)%nat || (List.length _ =? 0)%nat); [reflexivity |].
  cbv zeta.
  destruct (Req_dec_T _ 0) as [|H1]; [reflexivity |]. exfalso. apply H1.
  rewrite magnitude_weights.
  rewrite (List.map_ext _ (fun _ => 0)).
  - assert (Hz : ∀ l : list string, Rsum (List.map (fun _ => 0) l) = 0).
    { induction l as [|x l IH]; simpl; [reflexivity | rewrite IH; lra]. }
    rewrite Hz. apply sqrt_0.
  - intros t. rewrite idfOf_constructor.
    change (corpusDocs (constructor (VString ""))) with (@nil (list string)).
    rewrite calculateIDF_empty. lra.
Qed.

(** C6 (amended): in exact arithmetic a span whose stemmed token sequence
    is not empty and all of whose tokens get a nonzero IDF from [getIDF]
    has similarity 1 with itself. *)
Theorem self_similarity (m : NarrowMindModel) (a : string)
  (Hne : parseTokensStemmed (VString a) ≠ [])
  (Hidf : ∀ t, t ∈ parseTokensStemmed (VString a) → fst (getIDF t m) ≠ 0) :
  fst (calculateTFIDFSimilarity (VString a) (VString a) m) = 1.
Proof.
  rewrite (proj1 (similarity_spec _ _ m)).
  apply cosine_self; [assumption |].
  intros t Ht. rewrite <- getIDF_value. now apply Hidf.
Qed.

Lemma self_similarity_witness :
  fst (calculateTFIDFSimilarity (VString "Fast cats") (VString "Fast cats")
         (constructor (VString "The cat sat. The dog ran fast."))) = 1.
Proof.
  apply self_similarity.
  - vm_compute. discriminate.
  - intros t _. rewrite getIDF_value, idfOf_constructor.
    assert (H : 1 <= calculateIDF t
                  (corpusDocs (constructor (VString "The cat sat. The dog ran fast.")))).
    { apply calculateIDF_ge_1. unfold constructor; cbn [corpusDocs].
      vm_compute. discriminate. }
    lra.
Defined.

(** C2 (defect of the code): the method documents its result as a
    cosine similarity score from 0 to 1, and in the arithmetic JavaScript
    computes with it can return more than 1.  The text with the one
    sentence below gives every token the IDF 1; the span has the term
    frequencies 1/4, 1/4 and 1/2, the squared magnitude 0.375 and the
    magnitude 0.6123724356957945, whose square rounds to
    0.37499999999999994: the score is 1.0000000000000002.  The two zero
    cases of the claim do hold of the doubles: the score is exactly 0 when
    either stemmed token sequence is empty and, by the guard before the
    division, when either magnitude is 0. *)
Theorem similarity_double_defect :
  parseTokensStemmed (VString "cat dog fox fox") = ["cat"; "dog"; "fox"; "fox"]
  ∧ (∀ Math_log : float → float, Math_log 1%float = 0%float →
       let m := Double.constructor Math_log (VString "cat dog fox fox") in
       let score :=
         fst (Double.calculateTFIDFSimilarity Math_log
                (VString "cat dog fox fox") (VString "cat dog fox fox") m) in
       score = 0x1.0000000000001p+0%float
       ∧ PrimFloat.ltb 1 score = true)
  ∧ (∀ (Math_log : float → float) (m : Double.Model) (a b : value),
       parseTokensStemmed a = [] ∨ parseTokensStemmed b = [] →
       Double.calculateTFIDFSimilarity Math_log a b m = (0%float, m))
  ∧ (∀ (Math_log : float → float) (m : Double.Model) (a b : value),
       let words1 := parseTokensStemmed a in
       let words2 := parseTokensStemmed b in
       let vocab := new_Set (words1 ++ words2) in
       let r1 := Double.tfidfVector Math_log words1 vocab m in
       let r2 := Double.tfidfVector Math_log words2 vocab (snd r1) in
       PrimFloat.eqb (Double.magnitude (fst r1)) 0 = true
       ∨ PrimFloat.eqb (Double.magnitude (fst r2)) 0 = true →
       fst (Double.calculateTFIDFSimilarity Math_log a b m) = 0%float).
Proof.
  split; [reflexivity |]. split; [|split].
  - intros Math_log Hlog. cbv zeta.
    vm_compute. rewrite !Hlog. vm_compute. split; reflexivity.
  - intros Math_log m a b H. unfold Double.calculateTFIDFSimilarity.
    destruct H as [-> | ->]; simpl; [reflexivity | now rewrite orb_true_r].
  - intros Math_log m a b. cbv zeta. unfold Double.calculateTFIDFSimilarity.
    destruct ((List.length (parseTokensStemmed a) =? 0)%nat
              || (List.length (parseTokensStemmed b) =? 0)%nat); [reflexivity |].
    destruct (Double.tfidfVector Math_log (parseTokensStemmed a) _ m) as [vec1 m1].
    simpl fst. simpl snd.
    destruct (Double.tfidfVector Math_log (parseTokensStemmed b) _ m1) as [vec2 m2].
    simpl fst. intros [H | H]; rewrite H; [reflexivity | now rewrite orb_true_r].
Qed.

(** C6 as stated fails in the arithmetic JavaScript computes with.  In the
    text with the one sentence below both tokens have the IDF 1 and the
    term frequency 1/2; the squared magnitude is 0.5, and the square of its
    root 0.7071067811865476 rounds to 0.5000000000000001: the score of the
    span against itself is 0.9999999999999998. *)
Lemma self_similarity_counterexample :
  parseTokensStemmed (VString "cat dog") = ["cat"; "dog"]
  ∧ (∀ Math_log : float → float, Math_log 1%float = 0%float →
       let m := Double.constructor Math_log (VString "cat dog") in
       let score :=
         fst (Double.calculateTFIDFSimilarity Math_log
                (VString "cat dog") (VString "cat dog") m) in
       fst (Double.getIDF Math_log "cat" m) = 1%float
       ∧ fst (Double.getIDF Math_log "dog" m) = 1%float
       ∧ score = 0x1.ffffffffffffep-1%float
       ∧ PrimFloat.eqb score 1 = false).
Proof.
  split; [reflexivity |].
  intros Math_log Hlog. cbv zeta.
  vm_compute. rewrite !Hlog. vm_compute. repeat split; reflexivity.
Qed.

(** C10: with the model fixed, [calculateTFIDFSimilarity] gives the same
    score for both orders of its arguments, although the vocabulary is
    listed in another order. *)
Theorem similarity_symmetric (m : NarrowMindModel) (a b : string) :
  fst (calculateTFIDFSimilarity (VString a) (VString b) m)
  = fst (calculateTFIDFSimilarity (VString b) (VString a) m).
Proof.
  rewrite !(proj1 (similarity_spec _ _ m)). apply cosine_sym.
Qed.

Example vocabulary_order :
  new_Set (parseTokensStemmed (VString "cat sat") ++ parseTokensStemmed (VString "dog sat"))
  = ["cat"; "sat"; "dog"]
  ∧ new_Set (parseTokensStemmed (VString "dog sat") ++ parseTokensStemmed (VString "cat sat"))
    = ["dog"; "sat"; "cat"].
Proof. split; reflexivity. Qed.

End Similarity.

(** ** Ranking *)

Section Ranking.

Local Open Scope R_scope.

Lemma sort_insert_perm (x : entry) (l : list entry) :
  Permutation (sort_insert x l) (x :: l).
Proof.
  induction l as [|y l IH]; simpl; [reflexivity |].
  destruct (Rlt_dec 0 (compareFn x y)); [|reflexivity].
  rewrite IH. apply perm_swap.
Qed.

Lemma Array_sort_perm (l : list entry) : Permutation (Array_sort l) l.
Proof.
  induction l as [|x l IH]; simpl; [reflexivity |].
  rewrite sort_insert_perm. now constructor.
Qed.

Lemma sort_insert_descending (x : entry) (l : list entry) :
  descending l → descending (sort_insert x l).
Proof.
  unfold descending. induction 1 as [|y l Hl IH Hy]; simpl.
  - repeat constructor.
  - unfold compareFn at 1. destruct (Rlt_dec 0 (snd y - snd x)) as [Hlt | Hge].
    + constructor; [assumption |].
      rewrite (sort_insert_perm x l). constructor; [lra | assumption].
    + constructor; [now constructor |].
      constructor; [lra |].
      eapply Forall_impl; [exact Hy |]. simpl. intros z Hz. lra.
Qed.

Lemma Array_sort_descending (l : list entry) : descending (Array_sort l).
Proof.
  induction l as [|x l IH]; simpl; [constructor |].
  now apply sort_insert_descending.
Qed.

Lemma descending_firstn (n : nat) (l : list entry) :
  descending l → descending (firstn n l).
Proof.
  unfold descending. intros H. revert n.
  induction H as [|y l Hl IH Hy]; intros [|n]; simpl; try constructor.
  - apply IH.
  - now apply Forall_take.
Qed.

Lemma scoredSentences_positive (m : NarrowMindModel) (query : value) :
  Forall (fun e => 0 < snd e) (scoredSentences m query).
Proof.
  unfold scoredSentences. apply Forall_forall. intros e He.
  apply list_elem_of_In, filter_In in He as [_ He].
  destruct (Rlt_dec 0 (snd e)); [assumption | discriminate].
Qed.

Lemma scoredSentences_ext (m m' : NarrowMindModel) (query : value) :
  sentences m' = sentences m → (∀ t, idfOf m' t = idfOf m t) →
  scoredSentences m' query = scoredSentences m query.
Proof.
  intros Hs Hi. unfold scoredSentences. rewrite Hs. f_equal.
  apply List.map_ext. intros s. now rewrite (similarityOf_ext m m').
Qed.

(** The loop pushes, in document order, the sentences whose score against
    the query is strictly positive. *)
Lemma rankLoop_spec (query : value) (ss : list string) (acc : list entry)
      (m0 m : NarrowMindModel) :
  extends m0 m →
  fst (rankLoop query ss acc m)
  = acc ++ List.filter (fun e => if Rlt_dec 0 (snd e) then true else false)
             (List.map (fun s => (s, similarityOf m0 query (VString s))) ss)
  ∧ extends m0 (snd (rankLoop query ss acc m)).
Proof.
  revert acc m. induction ss as [|s ss IH]; intros acc m Hext; simpl.
  - split; [now rewrite app_nil_r | assumption].
  - unfold mbind, M_bind.
    destruct (similarity_spec query (VString s) m) as [Hv He].
    assert (Hsim : fst (calculateTFIDFSimilarity query (VString s) m)
                   = similarityOf m0 query (VString s)).
    { change (similarityOf m query (VString s) = similarityOf m0 query (VString s)).
      apply similarityOf_ext. apply Hext. }
    destruct (calculateTFIDFSimilarity query (VString s) m) as [sim m1].
    simpl in Hsim, He. subst sim.
    assert (Hext1 : extends m0 m1) by (eapply extends_trans; eassumption).
    destruct (Rlt_dec 0 (similarityOf m0 query (VString s))).
    + destruct (IH (acc ++ [(s, similarityOf m0 query (VString s))]) m1 Hext1)
        as [IHv IHe].
      split; [|assumption]. rewrite IHv, <- app_assoc. reflexivity.
    + destruct (IH acc m1 Hext1) as [IHv IHe]. now split.
Qed.

Lemma rankSentences_spec (query : value) (topN : Z) (m : NarrowMindModel) :
  fst (rankSentences query topN m)
  = (if rejected query then []
     else
       let sorted := Array_sort (scoredSentences m query) in
       if (0 <? topN)%Z then firstn (Z.to_nat topN) sorted else sorted)
  ∧ extends m (snd (rankSentences query topN m)).
Proof.
  unfold rankSentences. destruct (rejected query).
  - split; [reflexivity | apply extends_refl].
  - destruct (rankLoop_spec query (sentences m) [] m m (extends_refl m)) as [Hv He].
    destruct (rankLoop query (sentences m) [] m) as [ranks m']. simpl in *.
    subst ranks. now split.
Qed.

Lemma rejected_no_score (m : NarrowMindModel) (query : value) :
  rejected query = true → scoredSentences m query = [].
Proof.
  intros Hrej. unfold scoredSentences.
  assert (Hz : ∀ s, similarityOf m query (VString s) = 0).
  { intros s. unfold similarityOf. rewrite (proj1 (similarity_spec _ _ m)).
    unfold cosine, parseTokensStemmed at 1. now rewrite Hrej. }
  induction (sentences m) as [|s ss IH]; simpl; [reflexivity |].
  rewrite Hz. destruct (Rlt_dec 0 0) as [H | _]; [lra | exact IH].
Qed.

(** C1: for every string query and every integer [topN], every score
    returned by [rankSentences] is strictly positive and the scores are in
    descending order; with [topN > 0] the result is the first [topN]
    entries of the sorted sequence and has at most [topN] entries, and with
    [topN <= 0] it is the whole sorted sequence, which holds exactly the
    sentences with a strictly positive score. *)
Theorem rankSentences_sorted (m : NarrowMindModel) (query : string) (topN : Z) :
  let result := fst (rankSentences (VString query) topN m) in
  let full := Array_sort (scoredSentences m (VString query)) in
  Forall (fun e => 0 < snd e) result
  ∧ descending result
  ∧ ((0 < topN)%Z →
     (Z.of_nat (List.length result) <= topN)%Z
     ∧ result = firstn (Z.to_nat topN) full)
  ∧ ((topN <= 0)%Z → result = full)
  ∧ Permutation full (scoredSentences m (VString query)).
Proof.
  cbv zeta. rewrite (proj1 (rankSentences_spec _ topN m)).
  set (full := Array_sort (scoredSentences m (VString query))).
  assert (Hperm : Permutation full (scoredSentences m (VString query)))
    by apply Array_sort_perm.
  assert (Hpos : Forall (fun e => 0 < snd e) full).
  { apply Forall_forall. intros e He.
    pose proof (scoredSentences_positive m (VString query)) as H.
    rewrite Forall_forall in H. apply H. now rewrite <- Hperm. }
  assert (Hdesc : descending full) by apply Array_sort_descending.
  destruct (rejected (VString query)) eqn:Hrej.
  - assert (Hfull : full = []).
    { unfold full. now rewrite (rejected_no_score m _ Hrej). }
    rewrite Hfull in *.
    repeat split; try constructor; try assumption.
    + simpl. lia.
    + now rewrite firstn_nil.
  - cbv zeta. destruct (Z.ltb_spec 0 topN) as [Hlt | Hle].
    + split; [now apply Forall_take |].
      split; [now apply descending_firstn |].
      split; [|split; [lia | assumption]].
      intros _. split; [|reflexivity].
      pose proof (firstn_le_length (Z.to_nat topN) full). lia.
    + repeat split; try assumption; lia.
Qed.

(** C9: for every model and every [topN], [rankSentences] answers a query
    that is not a string, or that is the empty string, with the empty
    sequence and leaves the model as it was; no path of the method throws. *)
Theorem rankSentences_rejects (m : NarrowMindModel) (query : value) (topN : Z)
  (Hq : typeof query ≠ TString ∨ query = VString "") :
  rankSentences query topN m = ([], m).
Proof.
  unfold rankSentences.
  assert (Hrej : rejected query = true).
  { unfold rejected. destruct Hq as [Hty | ->]; [|reflexivity].
    destruct query; simpl in *; try congruence; now rewrite orb_true_r. }
  now rewrite Hrej.
Qed.

Lemma rankSentences_rejects_witness :
  rankSentences VNull 3 (constructor (VString "The cat sat. The dog ran fast."))
  = ([], constructor (VString "The cat sat. The dog ran fast."))
  ∧ rankSentences (VString "") 0 (constructor (VString "The cat sat. The dog ran fast."))
    = ([], constructor (VString "The cat sat. The dog ran fast.")).
Proof.
  split; apply rankSentences_rejects; [left; discriminate | right; reflexivity].
Defined.

Lemma rankSentences_ext (m m' : NarrowMindModel) (query : value) (topN : Z) :
  sentences m' = sentences m → (∀ t, idfOf m' t = idfOf m t) →
  fst (rankSentences query topN m') = fst (rankSentences query topN m).
Proof.
  intros Hs Hi.
  rewrite (proj1 (rankSentences_spec query topN m')),
          (proj1 (rankSentences_spec query topN m)).
  now rewrite (scoredSentences_ext m m').
Qed.

(** C5: for a token absent from the cache, two calls of [getIDF] in a row
    return the same value, the second call leaves the model as the first
    left it, every entry cached before is still there with its value, the
    documents and the sentences are unchanged, and every later
    [rankSentences] returns what it would have returned without the calls. *)
Theorem getIDF_idempotent (m : NarrowMindModel) (t : string)
  (Hmiss : idfCache m !! t = None) :
  let first := getIDF t m in
  let second := getIDF t (snd first) in
  fst second = fst first
  ∧ snd second = snd first
  ∧ fst first = calculateIDF t (corpusDocs m)
  ∧ (∀ t' v, idfCache m !! t' = Some v → idfCache (snd second) !! t' = Some v)
  ∧ corpusDocs (snd second) = corpusDocs m
  ∧ sentences (snd second) = sentences m
  ∧ (∀ query topN,
        fst (rankSentences query topN (snd second)) = fst (rankSentences query topN m)).
Proof.
  cbv zeta.
  pose proof (getIDF_cached t m) as Hc.
  pose proof (getIDF_extends t m) as (Hr & Ht & Hs & Hd & Hk & Hi).
  rewrite (getIDF_hit t _ _ Hc). simpl.
  repeat split; try assumption.
  - unfold getIDF. now rewrite Hmiss.
  - intros query topN. now apply rankSentences_ext.
Qed.

Lemma getIDF_idempotent_witness :
  let m := constructor (VString "The cat sat. The dog ran fast.") in
  fst (getIDF "bird" (snd (getIDF "bird" m))) = fst (getIDF "bird" m)
  ∧ snd (getIDF "bird" (snd (getIDF "bird" m))) = snd (getIDF "bird" m).
Proof.
  cbv zeta.
  destruct (getIDF_idempotent (constructor (VString "The cat sat. The dog ran fast."))
              "bird") as (H1 & H2 & _).
  - apply precomputeIDF_miss.
    apply (bool_decide_unpack _). vm_compute. reflexivity.
  - split; assumption.
Defined.

(** The end-to-end scenario of the specification: the sentence about the
    cat is ranked with a strictly positive score and the other sentence,
    which shares no stemmed token with the query, is left out. *)
Example rank_cat :
  let m := constructor (VString "The cat sat. The dog ran fast.") in
  fst (rankSentences (VString "cat") 0 m)
  = [("The cat sat", similarityOf m (VString "cat") (VString "The cat sat"))]
  ∧ 0 < similarityOf m (VString "cat") (VString "The cat sat").
Proof.
  cbv zeta.
  set (m := constructor (VString "The cat sat. The dog ran fast.")).
  assert (Hpos : 0 < similarityOf m (VString "cat") (VString "The cat sat")).
  { unfold similarityOf. rewrite (proj1 (similarity_spec _ _ m)).
    apply (cosine_shared m _ _ "cat").
    - apply (bool_decide_unpack _). vm_compute. reflexivity.
    - apply (bool_decide_unpack _). vm_compute. reflexivity.
    - unfold m. rewrite idfOf_constructor.
      assert (1 <= calculateIDF "cat"
                (corpusDocs (constructor (VString "The cat sat. The dog ran fast.")))).
      { apply calculateIDF_ge_1. unfold constructor; cbn [corpusDocs].
        vm_compute. discriminate. }
      lra. }
  assert (Hzero : similarityOf m (VString "cat") (VString "The dog ran fast") = 0).
  { unfold similarityOf. rewrite (proj1 (similarity_spec _ _ m)).
    apply cosine_disjoint. intros t Ht.
    change (parseTokensStemmed (VString "cat")) with ["cat"] in Ht.
    apply list_elem_of_singleton in Ht. subst t.
    apply (bool_decide_unpack _). vm_compute. reflexivity. }
  split; [|assumption].
  rewrite (proj1 (rankSentences_spec _ _ m)).
  change (rejected (VString "cat")) with false. cbv zeta.
  change (0 <? 0)%Z with false. cbv iota.
  unfold scoredSentences.
  change (sentences m) with ["The cat sat"; "The dog ran fast"].
  simpl List.map. simpl List.filter. rewrite Hzero.
  destruct (Rlt_dec 0 (similarityOf m (VString "cat") (VString "The cat sat")));
    [|contradiction].
  destruct (Rlt_dec 0 0) as [H | _]; [lra |]. reflexivity.
Qed.

End Ranking.

(** ** The tokenizer *)

Section Tokenizer.

Lemma pieces_nil (sep : ascii → bool) (cur : string) (b : bool) :
  pieces sep cur b "" = if Str.truthy cur then [cur] else [].
Proof. reflexivity. Qed.

Lemma pieces_sep (sep : ascii → bool) (cur : string) (b : bool) (c : ascii) (s : string) :
  sep c = true → (b = true → cur = "") →
  pieces sep cur b (String c s) = pieces sep cur false "" ++ pieces sep "" true s.
Proof.
  intros Hc Hb. unfold pieces. simpl. rewrite Hc. destruct b.
  - rewrite (Hb eq_refl). reflexivity.
  - simpl. destruct (Str.truthy cur); reflexivity.
Qed.

Lemma pieces_tok (sep : ascii → bool) (cur : string) (b : bool) (c : ascii) (s : string) :
  sep c = false →
  pieces sep cur b (String c s) = pieces sep (cur +:+ String c "") false s.
Proof. intros Hc. unfold pieces. simpl. now rewrite Hc. Qed.

Lemma pieces_run (sep : ascii → bool) (s : string) :
  pieces sep "" true s = pieces sep "" false s.
Proof.
  destruct s as [|c s]; [reflexivity |].
  destruct (sep c) eqn:Hc.
  - now rewrite !pieces_sep by auto.
  - now rewrite !pieces_tok by auto.
Qed.

Lemma pieces_app (sep : ascii → bool) (a : string) :
  ∀ (cur : string) (b : bool) (c : ascii) (rest : string),
    sep c = true → (b = true → cur = "") →
    pieces sep cur b (a +:+ String c rest)
    = pieces sep cur b a ++ pieces sep "" false rest.
Proof.
  induction a as [|d a IH]; intros cur b c rest Hc Hb.
  - change ("" +:+ String c rest) with (String c rest).
    rewrite pieces_sep, pieces_run by assumption. reflexivity.
  - change (String d a +:+ String c rest) with (String d (a +:+ String c rest)).
    destruct (sep d) eqn:Hd.
    + rewrite !pieces_sep by assumption.
      rewrite IH by auto. now rewrite app_assoc.
    + rewrite !pieces_tok by assumption. apply IH; [assumption | discriminate].
Qed.

Lemma space_is_token_sep (c : ascii) : Tok.is_space c = true → Tok.token_sep c = true.
Proof.
  destruct c as [[] [] [] [] [] [] [] []]; vm_compute; congruence.
Qed.

Lemma pieces_trimStart (sep : ascii → bool) (s : string) :
  (∀ c, Tok.is_space c = true → sep c = true) →
  pieces sep "" false (Tok.trimStart s) = pieces sep "" false s.
Proof.
  intros Hsp. induction s as [|c s IH]; [reflexivity |]. simpl.
  destruct (Tok.is_space c) eqn:Hc; [|reflexivity].
  rewrite IH, pieces_sep by auto. now rewrite pieces_run.
Qed.

Lemma pieces_trimEnd (sep : ascii → bool) (s : string) :
  (∀ c, Tok.is_space c = true → sep c = true) →
  ∀ (cur : string) (b : bool), (b = true → cur = "") →
    pieces sep cur b (Tok.trimEnd s) = pieces sep cur b s.
Proof.
  intros Hsp. induction s as [|c s IH]; intros cur b Hb; [reflexivity |]. simpl.
  destruct (Tok.is_space c && negb (Str.truthy (Tok.trimEnd s))) eqn:E.
  - apply andb_true_iff in E as [Hc Ht]. apply negb_true_iff, truthy_false in Ht.
    rewrite pieces_sep by auto.
    rewrite <- (IH "" true) by reflexivity. rewrite Ht.
    rewrite !pieces_nil. simpl. now rewrite app_nil_r.
  - destruct (sep c) eqn:Hc.
    + rewrite !pieces_sep by assumption. now rewrite IH.
    + rewrite !pieces_tok by assumption. apply IH. discriminate.
Qed.

(** [parseTokens] keeps the non-empty pieces between separator runs; the
    guard and the [trim] change nothing of them. *)
Lemma parseTokens_pieces (s : string) :
  parseTokens (VString s) = pieces Tok.token_sep "" false s.
Proof.
  unfold parseTokens, rejected. simpl.
  destruct (Str.truthy s) eqn:Hs; simpl.
  - change (List.filter Str.truthy (Tok.split Tok.token_sep (Tok.trim s)))
      with (pieces Tok.token_sep "" false (Tok.trimEnd (Tok.trimStart s))).
    rewrite pieces_trimEnd by (apply space_is_token_sep || discriminate).
    apply pieces_trimStart, space_is_token_sep.
  - apply truthy_false in Hs. now subst s.
Qed.

Lemma parseTokens_not_string (text : value) :
  typeof text ≠ TString → parseTokens text = [].
Proof.
  intros H. unfold parseTokens, rejected.
  destruct text; simpl in *; try congruence; now rewrite ?orb_true_r.
Qed.

Lemma all_chars_app (p : ascii → bool) (a b : string) :
  all_chars p (a +:+ b) = all_chars p a && all_chars p b.
Proof.
  induction a as [|c a IH]; [reflexivity |].
  change (String c a +:+ b) with (String c (a +:+ b)). simpl.
  now rewrite IH, andb_assoc.
Qed.

Lemma pieces_alnum (sep : ascii → bool) (s : string) :
  ∀ (cur : string) (b : bool),
    all_chars (fun c => negb (sep c)) cur = true →
    Forall (fun t => t ≠ "" ∧ all_chars (fun c => negb (sep c)) t = true)
           (pieces sep cur b s).
Proof.
  induction s as [|c s IH]; intros cur b Hcur.
  - rewrite pieces_nil. destruct (Str.truthy cur) eqn:Ht; constructor; [|constructor].
    split; [|assumption]. intros ->. discriminate.
  - unfold pieces. simpl. destruct (sep c) eqn:Hc.
    + destruct b.
      * apply (IH "" true). reflexivity.
      * simpl. destruct (Str.truthy cur) eqn:Ht.
        -- constructor; [|apply (IH "" true); reflexivity].
           split; [|assumption]. intros ->. discriminate.
        -- apply (IH "" true). reflexivity.
    + apply IH. rewrite all_chars_app, Hcur. simpl. now rewrite Hc.
Qed.

Lemma pieces_whole (sep : ascii → bool) (s : string) :
  ∀ (cur : string) (b : bool),
    all_chars (fun c => negb (sep c)) s = true →
    pieces sep cur b s = if Str.truthy (cur +:+ s) then [cur +:+ s] else [].
Proof.
  induction s as [|c s IH]; intros cur b Hs.
  - rewrite pieces_nil, app_empty_r. reflexivity.
  - simpl in Hs. apply andb_true_iff in Hs as [Hc Hs]. apply negb_true_iff in Hc.
    rewrite pieces_tok, IH by assumption.
    replace ((cur +:+ String c "") +:+ s) with (cur +:+ String c s); [reflexivity |].
    clear. induction cur as [|d cur IHc]; [reflexivity |].
    change (String d (cur +:+ String c s) = String d ((cur +:+ String c "") +:+ s)).
    now rewrite IHc.
Qed.

Lemma pieces_empty_iff (sep : ascii → bool) (s : string) :
  ∀ (cur : string) (b : bool), (b = true → cur = "") →
    pieces sep cur b s = [] ↔ cur = "" ∧ all_chars sep s = true.
Proof.
  induction s as [|c s IH]; intros cur b Hb.
  - rewrite pieces_nil. destruct (Str.truthy cur) eqn:Ht.
    + split; [discriminate |]. intros [-> _]. discriminate.
    + apply truthy_false in Ht. subst. tauto.
  - simpl. destruct (sep c) eqn:Hc.
    + rewrite pieces_sep by assumption. rewrite pieces_nil. simpl.
      destruct (Str.truthy cur) eqn:Ht.
      * split; [discriminate |]. intros [-> _]. discriminate.
      * apply truthy_false in Ht. subst cur. simpl.
        rewrite (IH "" true) by reflexivity. tauto.
    + rewrite pieces_tok by assumption. rewrite IH by discriminate. simpl.
      split; [|intros [_ H]; discriminate].
      intros [H _]. destruct cur; discriminate.
Qed.

Lemma parseTokens_tokens (text : value) :
  Forall (fun t => t ≠ "" ∧ all_chars is_alnum t = true) (parseTokens text).
Proof.
  destruct text as [| | b | x | s |];
    try (rewrite parseTokens_not_string by discriminate; constructor).
  rewrite parseTokens_pieces.
  eapply Forall_impl; [apply pieces_alnum; reflexivity |].
  simpl. intros t [Hne Hall]. split; [assumption |].
  rewrite <- Hall. clear. induction t as [|c t IH]; [reflexivity |].
  simpl. rewrite IH. f_equal. unfold Tok.token_sep, is_alnum.
  now rewrite negb_involutive.
Qed.

(** X1: every token [parseTokens] returns is non-empty and made of
    letters and digits only, whatever the text. *)
Theorem parseTokens_alnum (text : value) :
  Forall (fun t => t ≠ "" ∧ all_chars is_alnum t = true) (parseTokens text).
Proof. apply parseTokens_tokens. Qed.

(** X2: a separator character cuts the text: the tokens of the text are
    the tokens before it followed by the tokens after it, and so are the
    stemmed tokens. *)
Theorem parseTokens_app (a b : string) (c : ascii)
  (Hc : Tok.token_sep c = true) :
  parseTokens (VString (a +:+ String c b))
  = parseTokens (VString a) ++ parseTokens (VString b)
  ∧ parseTokensStemmed (VString (a +:+ String c b))
    = parseTokensStemmed (VString a) ++ parseTokensStemmed (VString b).
Proof.
  assert (Htok : parseTokens (VString (a +:+ String c b))
                 = parseTokens (VString a) ++ parseTokens (VString b)).
  { rewrite !parseTokens_pieces. apply pieces_app; [assumption | discriminate]. }
  split; [assumption |].
  assert (Hst : ∀ s, parseTokensStemmed (VString s)
                     = List.map (fun token => stemWord (Str.toLowerCase token))
                                (parseTokens (VString s))).
  { intros s. unfold parseTokensStemmed.
    destruct (rejected (VString s)) eqn:E; [|reflexivity].
    unfold parseTokens. now rewrite E. }
  now rewrite !Hst, Htok, List.map_app.
Qed.

Lemma parseTokens_app_witness :
  parseTokens (VString ("The cats" +:+ String "," "sat"))
  = parseTokens (VString "The cats") ++ parseTokens (VString "sat")
  ∧ parseTokensStemmed (VString ("The cats" +:+ String "," "sat"))
    = parseTokensStemmed (VString "The cats") ++ parseTokensStemmed (VString "sat").
Proof. apply parseTokens_app. reflexivity. Defined.

(** X3: [parseTokens] returns no token exactly when the text holds no
    letter and no digit. *)
Theorem parseTokens_empty_iff (s : string) :
  parseTokens (VString s) = [] ↔ all_chars Tok.token_sep s = true.
Proof.
  rewrite parseTokens_pieces, pieces_empty_iff by discriminate. tauto.
Qed.

(** X4: a token is a fixed point of the tokenizer: parsed again, each
    token of a text gives itself and nothing else. *)
Theorem parseTokens_token (text : value) (t : string)
  (Ht : t ∈ parseTokens text) :
  parseTokens (VString t) = [t].
Proof.
  pose proof (parseTokens_tokens text) as Hall.
  rewrite Forall_forall in Hall. destruct (Hall t Ht) as [Hne Hal].
  rewrite parseTokens_pieces, pieces_whole.
  - change ("" +:+ t) with t. destruct (Str.truthy t) eqn:E; [reflexivity |].
    apply truthy_false in E. contradiction.
  - rewrite <- Hal. clear. induction t as [|c t IH]; [reflexivity |].
    simpl. rewrite IH. f_equal. unfold Tok.token_sep, is_alnum.
    now rewrite negb_involutive.
Qed.

Lemma parseTokens_token_witness :
  parseTokens (VString "cats") = ["cats"].
Proof.
  apply (parseTokens_token (VString "The cats, sat.") "cats").
  apply (bool_decide_unpack _). vm_compute. reflexivity.
Defined.

Lemma trimEnd_idem (s : string) : Tok.trimEnd (Tok.trimEnd s) = Tok.trimEnd s.
Proof.
  induction s as [|c s IH]; [reflexivity |]. simpl.
  destruct (Tok.is_space c && negb (Str.truthy (Tok.trimEnd s))) eqn:E; [reflexivity |].
  simpl. now rewrite IH, E.
Qed.

Lemma trimStart_trimEnd (s : string) :
  Tok.trimStart (Tok.trimEnd (Tok.trimStart s)) = Tok.trimEnd (Tok.trimStart s).
Proof.
  induction s as [|c s IH]; [reflexivity |]. simpl.
  destruct (Tok.is_space c) eqn:Hc; [exact IH |].
  simpl. rewrite Hc. simpl. now rewrite Hc.
Qed.

Lemma trim_idem (s : string) : Tok.trim (Tok.trim s) = Tok.trim s.
Proof.
  unfold Tok.trim. now rewrite trimStart_trimEnd, trimEnd_idem.
Qed.

Lemma all_chars_trim (p : ascii → bool) (s : string) :
  all_chars p s = true → all_chars p (Tok.trim s) = true.
Proof.
  intros H. unfold Tok.trim.
  assert (Hs : all_chars p (Tok.trimStart s) = true).
  { induction s as [|c s IH]; [reflexivity |]. simpl in *.
    apply andb_true_iff in H as [Hc Hs].
    destruct (Tok.is_space c); [now apply IH |]. simpl. now rewrite Hc, Hs. }
  clear H. induction (Tok.trimStart s) as [|c u IH]; [reflexivity |].
  simpl in *. apply andb_true_iff in Hs as [Hc Hu].
  destruct (Tok.is_space c && negb (Str.truthy (Tok.trimEnd u))); [reflexivity |].
  simpl. rewrite Hc. now apply IH.
Qed.

Lemma split_go_nosep (sep : ascii → bool) (s : string) :
  ∀ (cur : string) (b : bool),
    all_chars (fun c => negb (sep c)) cur = true →
    Forall (fun t => all_chars (fun c => negb (sep c)) t = true)
           (Tok.split_go sep cur b s).
Proof.
  induction s as [|c s IH]; intros cur b Hcur; simpl.
  - now repeat constructor.
  - destruct (sep c) eqn:Hc.
    + destruct b; [now apply IH |]. constructor; [assumption | now apply IH].
    + apply IH. rewrite all_chars_app, Hcur. simpl. now rewrite Hc.
Qed.

Lemma split_go_whole (sep : ascii → bool) (s : string) :
  ∀ (cur : string) (b : bool),
    all_chars (fun c => negb (sep c)) s = true →
    Tok.split_go sep cur b s = [cur +:+ s].
Proof.
  induction s as [|c s IH]; intros cur b Hs; simpl.
  - now rewrite app_empty_r.
  - simpl in Hs. apply andb_true_iff in Hs as [Hc Hs]. apply negb_true_iff in Hc.
    rewrite Hc, IH by assumption. f_equal.
    clear. induction cur as [|d cur IHc]; [reflexivity |].
    change (String d ((cur +:+ String c "") +:+ s) = String d (cur +:+ String c s)).
    now rewrite IHc.
Qed.

Lemma parseSentences_string (s : string) :
  parseSentences (VString s)
  = List.filter Str.truthy (List.map Tok.trim (Tok.split Tok.sentence_sep s)).
Proof.
  unfold parseSentences, rejected. simpl.
  destruct (Str.truthy s) eqn:Hs; [reflexivity |].
  apply truthy_false in Hs. now subst s.
Qed.

Lemma parseSentences_not_string (text : value) :
  typeof text ≠ TString → parseSentences text = [].
Proof.
  intros H. unfold parseSentences, rejected.
  destruct text; simpl in *; try congruence; now rewrite ?orb_true_r.
Qed.

Lemma parseSentences_spans (text : value) :
  Forall (fun s => s ≠ ""
                   ∧ all_chars (fun c => negb (Tok.sentence_sep c)) s = true
                   ∧ Tok.trim s = s)
         (parseSentences text).
Proof.
  destruct text as [| | b | x | s |];
    try (rewrite parseSentences_not_string by discriminate; constructor).
  rewrite parseSentences_string. apply Forall_forall. intros u Hu.
  apply list_elem_of_In, filter_In in Hu as [Hu Ht].
  apply in_map_iff in Hu as (piece & <- & Hp).
  split; [intros E; rewrite E in Ht; discriminate |]. split.
  - apply all_chars_trim.
    pose proof (split_go_nosep Tok.sentence_sep s "" false eq_refl) as Hall.
    rewrite Forall_forall in Hall. apply Hall. now apply list_elem_of_In.
  - apply trim_idem.
Qed.

(** X5: every sentence [parseSentences] returns is non-empty, holds none
    of the separator characters, and has no white space at either end
    ([trim] leaves it as it is). *)
Theorem parseSentences_clean (text : value) :
  Forall (fun s => s ≠ ""
                   ∧ all_chars (fun c => negb (Tok.sentence_sep c)) s = true
                   ∧ Tok.trim s = s)
         (parseSentences text).
Proof. apply parseSentences_spans. Qed.

(** X6: a sentence is a fixed point of the segmentation: parsed again,
    each sentence of a text gives itself and nothing else. *)
Theorem parseSentences_sentence (text : value) (s : string)
  (Hs : s ∈ parseSentences text) :
  parseSentences (VString s) = [s].
Proof.
  pose proof (parseSentences_spans text) as Hall.
  rewrite Forall_forall in Hall. destruct (Hall s Hs) as (Hne & Hsep & Htrim).
  rewrite parseSentences_string. unfold Tok.split.
  rewrite split_go_whole by assumption. change ("" +:+ s) with s. simpl.
  rewrite Htrim. destruct (Str.truthy s) eqn:E; [reflexivity |].
  apply truthy_false in E. contradiction.
Qed.

Lemma parseSentences_sentence_witness :
  parseSentences (VString "The dog ran fast") = ["The dog ran fast"].
Proof.
  apply (parseSentences_sentence (VString "The cat sat. The dog ran fast.")).
  apply (bool_decide_unpack _). vm_compute. reflexivity.
Defined.

End Tokenizer.

(** ** Case folding and the stemmers *)

Section CaseAndStems.

Lemma lower_char_idem (c : ascii) : Str.lower_char (Str.lower_char c) = Str.lower_char c.
Proof. destruct c as [[] [] [] [] [] [] [] []]; vm_compute; reflexivity. Qed.

Lemma token_sep_lower (c : ascii) : Tok.token_sep (Str.lower_char c) = Tok.token_sep c.
Proof. destruct c as [[] [] [] [] [] [] [] []]; vm_compute; reflexivity. Qed.

Lemma is_space_lower (c : ascii) : Tok.is_space (Str.lower_char c) = Tok.is_space c.
Proof. destruct c as [[] [] [] [] [] [] [] []]; vm_compute; reflexivity. Qed.

Lemma toLowerCase_idem (s : string) :
  Str.toLowerCase (Str.toLowerCase s) = Str.toLowerCase s.
Proof.
  induction s as [|c s IH]; [reflexivity |]. simpl. now rewrite lower_char_idem, IH.
Qed.

Lemma toLowerCase_app (a b : string) :
  Str.toLowerCase (a +:+ b) = Str.toLowerCase a +:+ Str.toLowerCase b.
Proof.
  induction a as [|c a IH]; [reflexivity |].
  change (String c a +:+ b) with (String c (a +:+ b)). simpl. rewrite IH. reflexivity.
Qed.

Lemma toLowerCase_substring (n k : nat) (s : string) :
  Str.toLowerCase (String.substring n k s) = String.substring n k (Str.toLowerCase s).
Proof.
  revert n k. induction s as [|c s IH]; intros n k.
  - destruct n, k; reflexivity.
  - destruct n as [|n]; simpl.
    + destruct k as [|k]; [reflexivity |]. simpl. now rewrite IH.
    + apply IH.
Qed.

Lemma truthy_lower (s : string) : Str.truthy (Str.toLowerCase s) = Str.truthy s.
Proof. destruct s; reflexivity. Qed.

Lemma trimStart_lower (s : string) :
  Tok.trimStart (Str.toLowerCase s) = Str.toLowerCase (Tok.trimStart s).
Proof.
  induction s as [|c s IH]; [reflexivity |]. simpl. rewrite is_space_lower.
  destruct (Tok.is_space c); [exact IH | reflexivity].
Qed.

Lemma trimEnd_lower (s : string) :
  Tok.trimEnd (Str.toLowerCase s) = Str.toLowerCase (Tok.trimEnd s).
Proof.
  induction s as [|c s IH]; [reflexivity |]. simpl.
  rewrite is_space_lower, IH, truthy_lower.
  destruct (Tok.is_space c && negb (Str.truthy (Tok.trimEnd s))); reflexivity.
Qed.

Lemma split_go_lower (sep : ascii → bool) (s : string) :
  (∀ c, sep (Str.lower_char c) = sep c) →
  ∀ (cur : string) (b : bool),
    Tok.split_go sep (Str.toLowerCase cur) b (Str.toLowerCase s)
    = List.map Str.toLowerCase (Tok.split_go sep cur b s).
Proof.
  intros Hsep. induction s as [|c s IH]; intros cur b; [reflexivity |].
  simpl. rewrite Hsep. destruct (sep c).
  - destruct b; simpl; [apply (IH "") | f_equal; apply (IH "")].
  - rewrite <- IH. now rewrite toLowerCase_app.
Qed.

Lemma filter_truthy_lower (l : list string) :
  List.filter Str.truthy (List.map Str.toLowerCase l)
  = List.map Str.toLowerCase (List.filter Str.truthy l).
Proof.
  induction l as [|x l IH]; [reflexivity |]. simpl. rewrite truthy_lower.
  destruct (Str.truthy x); simpl; now rewrite IH.
Qed.

Lemma rejected_lower (s : string) :
  rejected (VString (Str.toLowerCase s)) = rejected (VString s).
Proof. unfold rejected. simpl. now rewrite truthy_lower. Qed.

Lemma parseTokens_lower (s : string) :
  parseTokens (VString (Str.toLowerCase s))
  = List.map Str.toLowerCase (parseTokens (VString s)).
Proof.
  unfold parseTokens. rewrite rejected_lower.
  destruct (rejected (VString s)); [reflexivity |]. simpl string_of.
  unfold Tok.trim, Tok.split. rewrite trimStart_lower, trimEnd_lower.
  rewrite (split_go_lower Tok.token_sep _ token_sep_lower "" false).
  apply filter_truthy_lower.
Qed.

Lemma parseTokensStemmed_lower (s : string) :
  parseTokensStemmed (VString (Str.toLowerCase s)) = parseTokensStemmed (VString s).
Proof.
  unfold parseTokensStemmed. rewrite rejected_lower.
  destruct (rejected (VString s)); [reflexivity |].
  rewrite parseTokens_lower, List.map_map.
  apply List.map_ext. intros t. now rewrite toLowerCase_idem.
Qed.

(** X7: for spans of characters in U+0000..U+00FF, where lower-casing
    maps character to character, the case of a span does not matter: a
    span and its lower-cased form have the same stemmed tokens, the same
    similarity to any other span, and as a query the same ranking. *)
Theorem lower_case_irrelevant (m : NarrowMindModel) (a : string) (other : value)
        (topN : Z) :
  parseTokensStemmed (VString (Str.toLowerCase a)) = parseTokensStemmed (VString a)
  ∧ fst (calculateTFIDFSimilarity (VString (Str.toLowerCase a)) other m)
    = fst (calculateTFIDFSimilarity (VString a) other m)
  ∧ fst (calculateTFIDFSimilarity other (VString (Str.toLowerCase a)) m)
    = fst (calculateTFIDFSimilarity other (VString a) m)
  ∧ fst (rankSentences (VString (Str.toLowerCase a)) topN m)
    = fst (rankSentences (VString a) topN m).
Proof.
  split; [apply parseTokensStemmed_lower |].
  assert (Hsim : ∀ v, similarityOf m (VString (Str.toLowerCase a)) v
                      = similarityOf m (VString a) v).
  { intros v. unfold similarityOf.
    rewrite !(proj1 (similarity_spec _ _ m)). now rewrite parseTokensStemmed_lower. }
  split; [apply Hsim |]. split.
  - rewrite !(proj1 (similarity_spec _ _ m)). now rewrite parseTokensStemmed_lower.
  - rewrite !(proj1 (rankSentences_spec _ _ m)), rejected_lower.
    unfold scoredSentences.
    now rewrite (List.map_ext _ _ (fun s => f_equal (pair s) (Hsim (VString s)))).
Qed.

(** What every rule of the table keeps of a word it matches. *)
Lemma suffixes_bounds :
  Forall (fun r : rule =>
            (String.length (default "" r.2) <= String.length r.1.1)%nat
            ∧ (String.length r.1.1 + 3 <= r.1.2 + 1 + String.length (default "" r.2))%nat
            ∧ Str.toLowerCase (default "" r.2) = default "" r.2)
         suffixes.
Proof. repeat constructor; simpl; lia. Qed.

(** X8: [stemWord] returns a word shorter than three characters as it is;
    for a longer word the result is never longer than the lower-cased word
    and, when the lower-cased word has three or more characters, so has
    the result. *)
Theorem stemWord_length (w : string) :
  ((String.length w < 3)%nat → stemWord w = w)
  ∧ ((3 <= String.length w)%nat →
     (String.length (stemWord w) <= String.length (Str.toLowerCase w))%nat
     ∧ ((3 <= String.length (Str.toLowerCase w))%nat →
        (3 <= String.length (stemWord w))%nat)).
Proof.
  split; [apply stemWord_short |]. intros Hlong.
  rewrite (stemWord_long w Hlong).
  destruct (stemLoop_outcome suffixes (Str.toLowerCase w))
    as [(i & r & stem & Hi & Hs & Hmin & _ & Hres) | [_ Hres]];
    rewrite Hres.
  - pose proof suffixes_bounds as Hb. rewrite Forall_forall in Hb.
    destruct (Hb r (list_elem_of_lookup_2 _ _ _ Hi)) as (Hb1 & Hb2 & _).
    rewrite Hs in Hmin |- *. rewrite !string_length_app in *. lia.
  - lia.
Qed.

Lemma stemLoop_lower (rules : list rule) (lowerWord : string) :
  Forall (fun r : rule => Str.toLowerCase (default "" r.2) = default "" r.2) rules →
  Str.toLowerCase lowerWord = lowerWord →
  Str.toLowerCase (stemLoop rules lowerWord) = stemLoop rules lowerWord.
Proof.
  intros Hrules Hlow. induction Hrules as [|[[suffix minLength] replacement] rest Hr _ IH];
    simpl; [assumption |].
  destruct (Str.endsWith lowerWord suffix && (minLength <? String.length lowerWord)%nat);
    [|exact IH].
  assert (Hstem : Str.toLowerCase (Str.slice_drop_end lowerWord (String.length suffix))
                  = Str.slice_drop_end lowerWord (String.length suffix)).
  { unfold Str.slice_drop_end. now rewrite toLowerCase_substring, Hlow. }
  destruct replacement as [r|]; [|assumption]. simpl in Hr.
  destruct (Str.truthy r); [|assumption].
  now rewrite toLowerCase_app, Hstem, Hr.
Qed.

Lemma stemWord_lower (w : string) :
  Str.toLowerCase (stemWord (Str.toLowerCase w)) = stemWord (Str.toLowerCase w).
Proof.
  unfold stemWord.
  destruct (negb (Str.truthy (Str.toLowerCase w))
            || (String.length (Str.toLowerCase w) <? 3)%nat).
  - apply toLowerCase_idem.
  - rewrite toLowerCase_idem. apply stemLoop_lower; [|apply toLowerCase_idem].
    eapply Forall_impl; [apply suffixes_bounds |]. simpl. tauto.
Qed.

(** X9: every stemmed token is in lower case, whatever the case of the
    text. *)
Theorem parseTokensStemmed_lower_case (text : value) :
  Forall (fun t => Str.toLowerCase t = t) (parseTokensStemmed text).
Proof.
  unfold parseTokensStemmed. destruct (rejected text); [constructor |].
  apply Forall_forall. intros t Ht.
  apply list_elem_of_In, in_map_iff in Ht as (token & <- & _).
  apply stemWord_lower.
Qed.

Lemma string_app_assoc (a b c : string) : (a +:+ b) +:+ c = a +:+ (b +:+ c).
Proof.
  induction a as [|d a IH]; [reflexivity |].
  change (String d ((a +:+ b) +:+ c) = String d (a +:+ (b +:+ c))). now rewrite IH.
Qed.

Lemma endsWith_tail (s a b : string) :
  Str.endsWith s (a +:+ b) = true → Str.endsWith s b = true.
Proof.
  rewrite !endsWith_true. intros [stem ->].
  exists (stem +:+ a). now rewrite string_app_assoc.
Qed.

Lemma stem_loop_app (l1 l2 : list string) (lowerToken : string) :
  stem_loop (l1 ++ l2) lowerToken
  = if existsb (fun suffix =>
                  Str.endsWith lowerToken suffix
                  && (String.length suffix + 2 <? String.length lowerToken)%nat) l1
    then stem_loop l1 lowerToken
    else stem_loop l2 lowerToken.
Proof.
  induction l1 as [|suffix l1 IH]; [reflexivity |]. simpl.
  destruct (Str.endsWith lowerToken suffix
            && (String.length suffix + 2 <? String.length lowerToken)%nat);
    [reflexivity | exact IH].
Qed.

Lemma stem_loop_no_match (sufs : list string) (lowerToken : string) :
  existsb (fun suffix =>
             Str.endsWith lowerToken suffix
             && (String.length suffix + 2 <? String.length lowerToken)%nat) sufs = false →
  stem_loop sufs lowerToken = lowerToken.
Proof.
  induction sufs as [|suffix sufs IH]; [reflexivity |]. simpl.
  intros H. apply orb_false_iff in H as [H1 H2]. rewrite H1. now apply IH.
Qed.

(** X10: the entries [es] and [ies] of the stand-alone [stem] are dead:
    its [s] entry, which comes first, takes every word they could match, so
    [stem] is the function its list without them gives. *)
Theorem stem_dead_entries (token : string) :
  stem token
  = if negb (Str.truthy token) || (String.length token <? 3)%nat then token
    else stem_loop stem_live_suffixes (Str.toLowerCase token).
Proof.
  unfold stem.
  destruct (negb (Str.truthy token) || (String.length token <? 3)%nat); [reflexivity |].
  set (lw := Str.toLowerCase token).
  change stem_suffixes with (stem_live_suffixes ++ ["es"; "ies"]).
  rewrite stem_loop_app.
  destruct (existsb _ stem_live_suffixes) eqn:E; [reflexivity |].
  rewrite (stem_loop_no_match _ _ E).
  assert (Hs : Str.endsWith lw "s" && (String.length "s" + 2 <? String.length lw)%nat
               = false).
  { destruct (Str.endsWith lw "s" && (String.length "s" + 2 <? String.length lw)%nat)
      eqn:Hm; [|reflexivity].
    rewrite <- E. symmetry. apply existsb_exists. exists "s".
    split; [|exact Hm]. unfold stem_live_suffixes. simpl. tauto. }
  assert (Hdead : ∀ pre, Str.endsWith lw (pre +:+ "s")
                         && (String.length (pre +:+ "s") + 2 <? String.length lw)%nat
                         = false).
  { intros pre. destruct (Str.endsWith lw (pre +:+ "s")) eqn:He; [|reflexivity].
    apply endsWith_tail in He. rewrite He in Hs. simpl in *.
    apply Nat.ltb_ge in Hs. apply Nat.ltb_ge. rewrite string_length_app. simpl. lia. }
  pose proof (Hdead "e") as H1. pose proof (Hdead "ie") as H2.
  change ("e" +:+ "s") with "es" in H1. change ("ie" +:+ "s") with "ies" in H2.
  simpl in H1, H2 |- *. now rewrite H1, H2.
Qed.

Lemma stem_loop_prefix (sufs : list string) (lowerToken : string) :
  (∃ rest, lowerToken = stem_loop sufs lowerToken +:+ rest)
  ∧ ((3 <= String.length lowerToken)%nat →
     (3 <= String.length (stem_loop sufs lowerToken))%nat).
Proof.
  induction sufs as [|suffix sufs IH]; simpl.
  - split; [|tauto]. exists "". now rewrite app_empty_r.
  - destruct (Str.endsWith lowerToken suffix
              && (String.length suffix + 2 <? String.length lowerToken)%nat) eqn:E;
      [|exact IH].
    apply andb_true_iff in E as [He Hl]. apply Nat.ltb_lt in Hl.
    apply endsWith_true in He as [stem Hstem].
    assert (Hsl : Str.slice_drop_end lowerToken (String.length suffix) = stem).
    { rewrite Hstem. apply slice_drop_end_app. }
    rewrite Hsl. rewrite Hstem, string_length_app in Hl.
    split; [now exists suffix | lia].
Qed.

(** X11: the stand-alone [stem] only cuts: a token shorter than three
    characters is returned as it is; for a longer token the result is a
    prefix of the lower-cased token and, when the lower-cased token has
    three or more characters, so has the result. *)
Theorem stem_prefix (token : string) :
  ((String.length token < 3)%nat → stem token = token)
  ∧ ((3 <= String.length token)%nat →
     (∃ rest, Str.toLowerCase token = stem token +:+ rest)
     ∧ ((3 <= String.length (Str.toLowerCase token))%nat →
        (3 <= String.length (stem token))%nat)).
Proof.
  split; [apply stem_short |]. intros Hlong.
  assert (Hst : stem token = stem_loop stem_suffixes (Str.toLowerCase token)).
  { unfold stem. destruct (Str.truthy token) eqn:Ht.
    - simpl. destruct (Nat.ltb_spec (String.length token) 3); [lia | reflexivity].
    - apply truthy_false in Ht. subst token. simpl in Hlong. lia. }
  rewrite Hst. apply stem_loop_prefix.
Qed.

End CaseAndStems.

(** ** More on frequencies and the cache *)

Section FrequenciesMore.

Local Open Scope R_scope.

Lemma occurrences_le (t : string) (l : list string) :
  (occurrences t l <= List.length l)%nat.
Proof. unfold occurrences. apply List.filter_length_le. Qed.

(** X12: a term frequency lies between 0 and 1, and it is 0 exactly when
    the token does not occur in the word list (always so for the empty
    list). *)
Theorem calculateTF_range (t : string) (l : list string) :
  0 <= calculateTF t l <= 1 ∧ (calculateTF t l = 0 ↔ t ∉ l).
Proof.
  split; [split; [apply calculateTF_nonneg |] |].
  - unfold calculateTF. destruct l as [|w l]; simpl ((_ =? _)%nat); [lra |].
    apply div_le_intro; [apply lt_0_INR; simpl; lia |].
    rewrite Rmult_1_l. apply le_INR, occurrences_le.
  - split.
    + intros Hz Hin. pose proof (calculateTF_pos t l Hin). lra.
    + apply calculateTF_absent.
Qed.

Lemma sum_indicator (w : string) (v : list string) :
  NoDup v → w ∈ v →
  sum_list (List.map (fun t => if String.eqb w t then 1%nat else 0%nat) v) = 1%nat.
Proof.
  induction 1 as [|x v Hx Hnd IH]; intros Hin; [inversion Hin |]. simpl.
  assert (Hzero : ∀ u : list string, w ∉ u →
            sum_list (List.map (fun t => if String.eqb w t then 1%nat else 0%nat) u) = 0%nat).
  { induction u as [|y u IHu]; intros Hu; [reflexivity |]. simpl.
    apply not_elem_of_cons in Hu as [Hne Hu].
    destruct (String.eqb_spec w y); [congruence | now apply IHu]. }
  destruct (String.eqb_spec w x) as [-> | Hne].
  - now rewrite Hzero.
  - apply elem_of_cons in Hin as [-> | Hin]; [congruence |]. now rewrite IH.
Qed.

Lemma sum_occurrences (v l : list string) :
  NoDup v → (∀ x, x ∈ l → x ∈ v) →
  sum_list (List.map (fun t => occurrences t l) v) = List.length l.
Proof.
  intros Hnd. induction l as [|w l IH]; intros Hin.
  - clear. induction v as [|x v IHv]; [reflexivity | exact IHv].
  - assert (Hsplit : ∀ u : list string,
              sum_list (List.map (fun t => occurrences t (w :: l)) u)
              = (sum_list (List.map (fun t => if String.eqb w t then 1%nat else 0%nat) u)
                 + sum_list (List.map (fun t => occurrences t l) u))%nat).
    { induction u as [|y u IHu]; [reflexivity |]. simpl. rewrite IHu.
      unfold occurrences. simpl. destruct (String.eqb w y); simpl; lia. }
    rewrite Hsplit, sum_indicator, IH; try assumption.
    + reflexivity.
    + intros x Hx. apply Hin. now right.
    + apply Hin. now left.
Qed.

(** X13: in exact arithmetic, over the vocabulary of a non-empty word
    list the term frequencies add up to 1. *)
Theorem calculateTF_total (l : list string) (Hne : l ≠ []) :
  Rsum (List.map (fun t => calculateTF t l) (new_Set l)) = 1.
Proof.
  assert (Hpos : 0 < INR (List.length l)).
  { apply lt_0_INR. destruct l; [congruence | simpl; lia]. }
  assert (Hsum : ∀ v : list string,
            Rsum (List.map (fun t => calculateTF t l) v)
            = INR (sum_list (List.map (fun t => occurrences t l) v))
              / INR (List.length l)).
  { induction v as [|x v IHv]; simpl.
    - unfold Rdiv. now rewrite Rmult_0_l.
    - rewrite IHv, plus_INR. unfold calculateTF.
      destruct l; [congruence |]. simpl ((_ =? _)%nat). cbv iota. lra. }
  rewrite Hsum, sum_occurrences.
  - unfold Rdiv. apply Rinv_r. lra.
  - apply new_Set_NoDup.
  - intros x Hx. now apply new_Set_elem.
Qed.

Lemma calculateTF_total_witness :
  Rsum (List.map (fun t => calculateTF t ["the"; "cat"; "the"])
                 (new_Set ["the"; "cat"; "the"])) = 1.
Proof. apply calculateTF_total. discriminate. Defined.

Lemma fold_insert_hit (F : string → R) (l : list string)
      (acc : gmap string R) (t : string) :
  t ∈ l →
  fold_left (fun idfMap token => <[token := F token]> idfMap) l acc !! t = Some (F t).
Proof.
  revert acc. induction l as [|x l IH]; intros acc Hin; [inversion Hin |]. simpl.
  destruct (decide (t ∈ l)) as [Hl | Hl]; [now apply IH |].
  apply elem_of_cons in Hin as [-> | Hin]; [|contradiction].
  rewrite fold_insert_miss by assumption. apply lookup_insert_eq.
Qed.

Lemma concat_elem (docs : list (list string)) (t : string) :
  t ∈ List.concat docs ↔ ∃ doc, doc ∈ docs ∧ t ∈ doc.
Proof.
  rewrite list_elem_of_In, in_concat. split; intros (doc & H1 & H2); exists doc.
  - split; now apply list_elem_of_In.
  - split; now apply list_elem_of_In.
Qed.

Lemma precomputeIDF_hit (docs : list (list string)) (t : string) :
  t ∈ List.concat docs → precomputeIDF docs !! t = Some (calculateIDF t docs).
Proof.
  intros H. unfold precomputeIDF. apply fold_insert_hit. now apply new_Set_elem.
Qed.

(** X14: the cache [precomputeIDF] builds has an entry exactly for the
    tokens that occur in some document, and the entry of a token is its
    [calculateIDF] over the documents. *)
Theorem precomputeIDF_entries (docs : list (list string)) (t : string) :
  ((∃ doc, doc ∈ docs ∧ t ∈ doc) →
   precomputeIDF docs !! t = Some (calculateIDF t docs))
  ∧ ((∀ doc, doc ∈ docs → t ∉ doc) → precomputeIDF docs !! t = None).
Proof.
  split.
  - intros H. apply precomputeIDF_hit. now apply concat_elem.
  - intros H. apply precomputeIDF_miss. rewrite concat_elem.
    intros (doc & Hd & Ht). now apply (H doc).
Qed.

End FrequenciesMore.

(** ** Runs of the methods *)

Section Runs.

Local Open Scope R_scope.

Lemma getTokenStats_state (token : string) (m : NarrowMindModel) :
  snd (getTokenStats token m)
  = snd (getIDF (stemWord (Str.toLowerCase token)) m).
Proof.
  unfold getTokenStats.
  now destruct (getIDF (stemWord (Str.toLowerCase token)) m).
Qed.

Lemma step_extends (m m' : NarrowMindModel) : step m m' → extends m m'.
Proof.
  intros [token m0 | s1 s2 m0 | query topN m0 | token m0].
  - apply getIDF_extends.
  - apply similarity_spec.
  - apply rankSentences_spec.
  - rewrite getTokenStats_state. apply getIDF_extends.
Qed.

Lemma steps_extend (m m' : NarrowMindModel) : rtc step m m' → extends m m'.
Proof.
  induction 1 as [m | m1 m2 m3 H12 _ IH]; [apply extends_refl |].
  eapply extends_trans; [apply step_extends; eassumption | assumption].
Qed.

Lemma getTF_ext (m m' : NarrowMindModel) (t : string) :
  rawData m' = rawData m → getTF m' t = getTF m t.
Proof. intros H. unfold getTF. now rewrite H. Qed.

(** X15: no run of the methods touches the text, the tokens, the
    sentences or the documents of a model, and the cache only grows: an
    entry, once there, stays with its value. *)
Theorem run_keeps_model (m m' : NarrowMindModel) (Hrun : rtc step m m') :
  rawData m' = rawData m
  ∧ tokens m' = tokens m
  ∧ sentences m' = sentences m
  ∧ corpusDocs m' = corpusDocs m
  ∧ (∀ t v, idfCache m !! t = Some v → idfCache m' !! t = Some v).
Proof.
  destruct (steps_extend m m' Hrun) as (H1 & H2 & H3 & H4 & H5 & _).
  repeat split; assumption.
Qed.

Lemma run_keeps_model_witness :
  let m := constructor (VString "The cat sat. The dog ran fast.") in
  let m' := snd (rankSentences (VString "bird") 0 (snd (getIDF "fish" m))) in
  sentences m' = sentences m ∧ corpusDocs m' = corpusDocs m.
Proof.
  cbv zeta.
  destruct (run_keeps_model
              (constructor (VString "The cat sat. The dog ran fast."))
              (snd (rankSentences (VString "bird") 0
                      (snd (getIDF "fish"
                              (constructor (VString "The cat sat. The dog ran fast.")))))))
    as (_ & _ & H3 & H4 & _).
  - eapply rtc_l; [apply step_getIDF |]. apply rtc_once, step_rank.
  - split; assumption.
Defined.

(** X16: what a method returns does not depend on the calls made before:
    after any run of the methods, [getIDF], [getTF],
    [calculateTFIDFSimilarity] and [rankSentences] return what they would
    have returned before the run. *)
Theorem run_keeps_results (m m' : NarrowMindModel) (Hrun : rtc step m m') :
  (∀ token, fst (getIDF token m') = fst (getIDF token m))
  ∧ (∀ token, getTF m' token = getTF m token)
  ∧ (∀ s1 s2, fst (calculateTFIDFSimilarity s1 s2 m')
              = fst (calculateTFIDFSimilarity s1 s2 m))
  ∧ (∀ query topN, fst (rankSentences query topN m')
                   = fst (rankSentences query topN m)).
Proof.
  destruct (steps_extend m m' Hrun) as (H1 & _ & H3 & _ & _ & H6).
  split; [intros token; now rewrite !getIDF_value |].
  split; [intros token; now apply getTF_ext |].
  split; [intros s1 s2; now apply (similarityOf_ext m m') |].
  intros query topN. now apply rankSentences_ext.
Qed.

Lemma run_keeps_results_witness :
  let m := constructor (VString "The cat sat. The dog ran fast.") in
  let m' := snd (rankSentences (VString "bird") 0 (snd (getIDF "fish" m))) in
  fst (rankSentences (VString "cat") 1 m') = fst (rankSentences (VString "cat") 1 m).
Proof.
  cbv zeta.
  destruct (run_keeps_results
              (constructor (VString "The cat sat. The dog ran fast."))
              (snd (rankSentences (VString "bird") 0
                      (snd (getIDF "fish"
                              (constructor (VString "The cat sat. The dog ran fast.")))))))
    as (_ & _ & _ & H).
  - eapply rtc_l; [apply step_getIDF |]. apply rtc_once, step_rank.
  - apply H.
Defined.

Lemma reachable_extends (data : value) (m : NarrowMindModel) :
  reachable data m → extends (constructor data) m.
Proof.
  induction 1 as [|m m' _ IH Hstep]; [apply extends_refl |].
  eapply extends_trans; [exact IH | now apply step_extends].
Qed.

Lemma reachable_idf (data : value) (m : NarrowMindModel) (t : string) :
  reachable data m → idfOf m t = calculateIDF t (corpusDocs m).
Proof.
  intros Hr. destruct (reachable_extends data m Hr) as (_ & _ & _ & H4 & _ & H6).
  now rewrite H6, H4, idfOf_constructor.
Qed.

(** X17: in every model a program can hold, the cache is transparent:
    [getIDF] returns [calculateIDF] of the token over the documents, every
    cached value is that value, every token of a document is cached, and
    the sentences and documents are those the constructor read off the
    text. *)
Theorem reachable_cache (data : value) (m : NarrowMindModel)
  (Hr : reachable data m) :
  rawData m = data
  ∧ sentences m = parseSentences data
  ∧ corpusDocs m = List.map (fun s => parseTokensStemmed (VString s)) (sentences m)
  ∧ (∀ t, fst (getIDF t m) = calculateIDF t (corpusDocs m))
  ∧ (∀ t v, idfCache m !! t = Some v → v = calculateIDF t (corpusDocs m))
  ∧ (∀ doc t, doc ∈ corpusDocs m → t ∈ doc →
              idfCache m !! t = Some (calculateIDF t (corpusDocs m))).
Proof.
  pose proof (reachable_extends data m Hr) as (H1 & _ & H3 & H4 & H5 & _).
  split; [exact H1 |]. split; [exact H3 |]. split; [now rewrite H4, H3 |].
  split; [intros t; rewrite getIDF_value; now apply (reachable_idf data) |]. split.
  - intros t v Hv. pose proof (reachable_idf data m t Hr) as Hi.
    unfold idfOf in Hi. now rewrite Hv in Hi.
  - intros doc t Hdoc Ht. rewrite H4 in *. apply H5.
    apply precomputeIDF_hit, concat_elem. eauto.
Qed.

Lemma reachable_cache_witness :
  fst (getIDF "cat" (snd (getIDF "fish" (constructor (VString "The cat sat.")))))
  = calculateIDF "cat"
      (corpusDocs (snd (getIDF "fish" (constructor (VString "The cat sat."))))).
Proof.
  destruct (reachable_cache (VString "The cat sat.")
              (snd (getIDF "fish" (constructor (VString "The cat sat.")))))
    as (_ & _ & _ & H & _).
  - eapply reach_step; [apply reach_new | apply step_getIDF].
  - apply H.
Defined.

Lemma reachable_idf_nonzero (data : value) (m : NarrowMindModel) (t : string) :
  reachable data m → sentences m ≠ [] → idfOf m t ≠ 0.
Proof.
  intros Hr Hne. rewrite (reachable_idf data m t Hr).
  assert (Hd : corpusDocs m
               = List.map (fun s => parseTokensStemmed (VString s)) (sentences m)).
  { destruct (reachable_extends data m Hr) as (_ & _ & H3 & H4 & _).
    now rewrite H4, H3. }
  assert (Hdocs : corpusDocs m ≠ []).
  { rewrite Hd. destruct (sentences m); [congruence | discriminate]. }
  pose proof (calculateIDF_ge_1 t (corpusDocs m) Hdocs). lra.
Qed.

Lemma cosine_no_share (m : NarrowMindModel) (a b : string) :
  ¬ shares_token a b →
  cosine m (parseTokensStemmed (VString a)) (parseTokensStemmed (VString b)) = 0.
Proof.
  intros Hno. apply cosine_disjoint. intros t Ha Hb. apply Hno. now exists t.
Qed.

(** X18: spans without a common stemmed token have similarity 0, in every
    model. *)
Theorem similarity_no_share (m : NarrowMindModel) (a b : string)
  (Hno : ¬ shares_token a b) :
  fst (calculateTFIDFSimilarity (VString a) (VString b) m) = 0.
Proof.
  rewrite (proj1 (similarity_spec _ _ m)). now apply cosine_no_share.
Qed.

Lemma similarity_no_share_witness :
  fst (calculateTFIDFSimilarity (VString "cat") (VString "The dog ran fast")
         (constructor (VString "The cat sat. The dog ran fast."))) = 0.
Proof.
  apply similarity_no_share. intros (t & Ht & Hd).
  change (parseTokensStemmed (VString "cat")) with ["cat"] in Ht.
  apply list_elem_of_singleton in Ht. subst t. revert Hd.
  apply (bool_decide_unpack _). vm_compute. reflexivity.
Defined.

(** X19: in a model a program can hold, with at least one sentence, the
    similarity of two spans is strictly positive exactly when they have a
    stemmed token in common. *)
Theorem similarity_positive_iff (data : value) (m : NarrowMindModel) (a b : string)
  (Hr : reachable data m) (Hne : sentences m ≠ []) :
  0 < fst (calculateTFIDFSimilarity (VString a) (VString b) m) ↔ shares_token a b.
Proof.
  rewrite (proj1 (similarity_spec _ _ m)). split.
  - intros Hpos. destruct (Classical_Prop.classic (shares_token a b)) as [H | H]; [assumption |].
    rewrite (cosine_no_share m a b H) in Hpos. lra.
  - intros (t & Ha & Hb). apply (cosine_shared m _ _ t); try assumption.
    now apply (reachable_idf_nonzero data).
Qed.

Lemma similarity_positive_iff_witness :
  0 < fst (calculateTFIDFSimilarity (VString "Cats") (VString "The cat sat")
             (constructor (VString "The cat sat. The dog ran fast.")))
  ↔ shares_token "Cats" "The cat sat".
Proof.
  apply (similarity_positive_iff (VString "The cat sat. The dog ran fast.")).
  - apply reach_new.
  - unfold constructor; cbn [sentences]. vm_compute. discriminate.
Defined.

Lemma similarityOf_positive_iff (data : value) (m : NarrowMindModel) (a b : string) :
  reachable data m → sentences m ≠ [] →
  0 < similarityOf m (VString a) (VString b) ↔ shares_token a b.
Proof.
  intros Hr Hne. unfold similarityOf. rewrite (proj1 (similarity_spec _ _ m)). split.
  - intros Hpos. destruct (Classical_Prop.classic (shares_token a b)) as [H | H];
      [assumption |].
    rewrite (cosine_no_share m a b H) in Hpos. lra.
  - intros (t & Ha & Hb). apply (cosine_shared m _ _ t); try assumption.
    now apply (reachable_idf_nonzero data).
Qed.

Lemma scoredSentences_elem (m : NarrowMindModel) (query : value) (e : entry) :
  e ∈ scoredSentences m query
  ↔ e.1 ∈ sentences m ∧ e.2 = similarityOf m query (VString e.1) ∧ 0 < e.2.
Proof.
  unfold scoredSentences. rewrite list_elem_of_In, filter_In, in_map_iff. split.
  - intros [(s & <- & Hs) Hpos]. simpl in *.
    split; [now apply list_elem_of_In |]. split; [reflexivity |].
    destruct (Rlt_dec 0 (similarityOf m query (VString s))); [assumption | discriminate].
  - intros (Hs & He & Hpos). split.
    + exists e.1. split; [|now apply list_elem_of_In].
      destruct e as [s x]. simpl in *. now subst x.
    + destruct (Rlt_dec 0 e.2); [reflexivity | contradiction].
Qed.

Lemma ranked_subset (m : NarrowMindModel) (query : value) (topN : Z) (e : entry) :
  e ∈ fst (rankSentences query topN m) → e ∈ scoredSentences m query.
Proof.
  rewrite (proj1 (rankSentences_spec query topN m)).
  destruct (rejected query); [intros H; inversion H |]. cbv zeta.
  intros H.
  assert (He : e ∈ Array_sort (scoredSentences m query)).
  { destruct (0 <? topN)%Z; [|assumption].
    rewrite <- (take_drop (Z.to_nat topN) (Array_sort (scoredSentences m query))).
    apply elem_of_app. now left. }
  now rewrite (Array_sort_perm _) in He.
Qed.

(** X20: every entry [rankSentences] returns pairs a sentence of the model
    with the similarity of the query to that sentence, and there are never
    more entries than sentences; this for every query value, every
    [topN] and every model. *)
Theorem rankSentences_entries (m : NarrowMindModel) (query : value) (topN : Z) :
  Forall (fun e : entry =>
            e.1 ∈ sentences m
            ∧ e.2 = fst (calculateTFIDFSimilarity query (VString e.1) m))
         (fst (rankSentences query topN m))
  ∧ (List.length (fst (rankSentences query topN m)) <= List.length (sentences m))%nat.
Proof.
  split.
  - apply Forall_forall. intros e He.
    apply ranked_subset, scoredSentences_elem in He as (H1 & H2 & _). now split.
  - rewrite (proj1 (rankSentences_spec query topN m)).
    destruct (rejected query); [simpl; lia |]. cbv zeta.
    assert (Hlen : (List.length (Array_sort (scoredSentences m query))
                    <= List.length (sentences m))%nat).
    { rewrite (Permutation_length (Array_sort_perm _)). unfold scoredSentences.
      etransitivity; [apply List.filter_length_le |]. now rewrite List.length_map. }
    destruct (0 <? topN)%Z; [|assumption].
    rewrite length_take. lia.
Qed.

(** X21: in a model a program can hold, asked for all results
    ([topN <= 0]), [rankSentences] lists a sentence exactly when it is a
    sentence of the text that has a stemmed token in common with the
    query. *)
Theorem ranked_iff_shares (data : value) (m : NarrowMindModel)
        (query s : string) (topN : Z)
  (Hr : reachable data m) (Htop : (topN <= 0)%Z) :
  s ∈ List.map fst (fst (rankSentences (VString query) topN m))
  ↔ s ∈ sentences m ∧ shares_token query s.
Proof.
  assert (Hscored : s ∈ List.map fst (scoredSentences m (VString query))
                    ↔ s ∈ sentences m ∧ shares_token query s).
  { rewrite list_elem_of_In, in_map_iff. split.
    - intros (e & <- & He).
      apply list_elem_of_In, scoredSentences_elem in He as (H1 & H2 & H3).
      split; [assumption |].
      apply (similarityOf_positive_iff data m); [assumption | | now rewrite <- H2].
      intros E. rewrite E in H1. inversion H1.
    - intros [Hs Hsh].
      exists (s, similarityOf m (VString query) (VString s)). split; [reflexivity |].
      apply list_elem_of_In, scoredSentences_elem. simpl.
      split; [assumption |]. split; [reflexivity |].
      apply (similarityOf_positive_iff data m); try assumption.
      intros E. rewrite E in Hs. inversion Hs. }
  rewrite (proj1 (rankSentences_spec _ topN m)).
  destruct (rejected (VString query)) eqn:Hrej.
  - rewrite <- Hscored, (rejected_no_score m _ Hrej). reflexivity.
  - cbv zeta. destruct (Z.ltb_spec 0 topN) as [Hlt | _]; [lia |].
    rewrite <- Hscored. now rewrite (Array_sort_perm _).
Qed.

Lemma ranked_iff_shares_witness :
  "The cat sat" ∈ List.map fst
      (fst (rankSentences (VString "Cats") 0
              (constructor (VString "The cat sat. The dog ran fast."))))
  ↔ "The cat sat" ∈ sentences (constructor (VString "The cat sat. The dog ran fast."))
    ∧ shares_token "Cats" "The cat sat".
Proof.
  apply (ranked_iff_shares (VString "The cat sat. The dog ran fast.")).
  - apply reach_new.
  - lia.
Defined.

(** X22: [getTokenStats] reports the stemmed, lower-cased token, the
    whole-text frequency [getTF] of the token asked for, and the value
    [getIDF] gives for the stemmed token; it changes the model as that one
    call of [getIDF] does.  The frequency is 0 exactly when the reported
    token is not among the stemmed tokens of the text. *)
Theorem getTokenStats_report (m : NarrowMindModel) (token : string) :
  let stemmed := stemWord (Str.toLowerCase token) in
  let stats := fst (getTokenStats token m) in
  stat_token stats = stemmed
  ∧ stat_tf stats = getTF m token
  ∧ stat_idf stats = fst (getIDF stemmed m)
  ∧ snd (getTokenStats token m) = snd (getIDF stemmed m)
  ∧ (stat_tf stats = 0 ↔ stat_token stats ∉ parseTokensStemmed (rawData m)).
Proof.
  cbv zeta. rewrite getTokenStats_state. unfold getTokenStats.
  destruct (getIDF (stemWord (Str.toLowerCase token)) m) as [idf m1]. simpl.
  assert (Htf : getTF m (Str.toLowerCase token) = getTF m token).
  { unfold getTF. now rewrite toLowerCase_idem. }
  rewrite Htf. repeat split; try reflexivity.
  - intros Hz Hin. unfold getTF in Hz.
    pose proof (calculateTF_pos _ _ Hin). lra.
  - intros Hno. unfold getTF. now apply calculateTF_absent.
Qed.

(** X23: when a span is not a string, is empty, or holds no letter and
    no digit, [calculateTFIDFSimilarity] returns 0 on either side and
    leaves the model, cache included, as it is. *)
Theorem similarity_no_tokens (m : NarrowMindModel) (span other : value)
  (Hspan : rejected span = true ∨ all_chars Tok.token_sep (string_of span) = true) :
  calculateTFIDFSimilarity span other m = (0, m)
  ∧ calculateTFIDFSimilarity other span m = (0, m).
Proof.
  assert (Hnil : parseTokensStemmed span = []).
  { unfold parseTokensStemmed. destruct (rejected span) eqn:Hrej; [reflexivity |].
    destruct Hspan as [H | H]; [discriminate |].
    destruct span as [| | b | x | s |];
      try (rewrite parseTokens_not_string by discriminate; reflexivity).
    simpl in H. rewrite parseTokens_pieces.
    assert (Hp : pieces Tok.token_sep "" false s = []).
    { apply pieces_empty_iff; [discriminate | now split]. }
    now rewrite Hp. }
  unfold calculateTFIDFSimilarity. rewrite Hnil. simpl.
  now rewrite orb_true_r.
Qed.

Lemma similarity_no_tokens_witness :
  calculateTFIDFSimilarity (VString " ?! ") (VString "The cat sat")
    (constructor (VString "The cat sat. The dog ran fast."))
  = (0, constructor (VString "The cat sat. The dog ran fast.")).
Proof.
  apply (similarity_no_tokens _ (VString " ?! ") (VString "The cat sat")).
  right. reflexivity.
Defined.

(** X24: built from a value that is not a string, or from the empty
    string, the model is empty: no tokens, no sentences, no documents and
    an empty cache; every ranking is then empty and every IDF is 0. *)
Theorem constructor_no_text (data : value)
  (Hdata : typeof data ≠ TString ∨ data = VString "") :
  constructor data
  = {| rawData := data; tokens := []; sentences := []; corpusDocs := [];
       idfCache := ∅ |}
  ∧ (∀ query topN, fst (rankSentences query topN (constructor data)) = [])
  ∧ (∀ token, fst (getIDF token (constructor data)) = 0).
Proof.
  assert (Hrej : rejected data = true).
  { unfold rejected. destruct Hdata as [Hty | ->]; [|reflexivity].
    destruct data; simpl in *; try congruence; now rewrite orb_true_r. }
  assert (Hc : constructor data
               = {| rawData := data; tokens := []; sentences := []; corpusDocs := [];
                    idfCache := ∅ |}).
  { unfold constructor, parseTokens, parseSentences. now rewrite Hrej. }
  split; [exact Hc |]. rewrite Hc. split.
  - intros query topN. rewrite (proj1 (rankSentences_spec _ _ _)).
    destruct (rejected query); [reflexivity |]. cbv zeta.
    change (scoredSentences _ query) with (@nil entry).
    now destruct (0 <? topN)%Z; [rewrite firstn_nil |].
  - intros token. reflexivity.
Qed.

Lemma constructor_no_text_witness :
  constructor VUndefined
  = {| rawData := VUndefined; tokens := []; sentences := []; corpusDocs := [];
       idfCache := ∅ |}.
Proof.
  destruct (constructor_no_text VUndefined) as [H _]; [left; discriminate | exact H].
Defined.

End Runs.

(** ** The whole text and its sentences *)

Section WholeText.

Local Open Scope R_scope.

Lemma sentence_sep_is_token_sep (c : ascii) :
  Tok.sentence_sep c = true → Tok.token_sep c = true.
Proof.
  destruct c as [[] [] [] [] [] [] [] []]; vm_compute; congruence.
Qed.

Lemma parseTokensStemmed_map (text : value) :
  parseTokensStemmed text
  = List.map (fun token => stemWord (Str.toLowerCase token)) (parseTokens text).
Proof.
  unfold parseTokensStemmed. destruct (rejected text) eqn:E; [|reflexivity].
  unfold parseTokens. now rewrite E.
Qed.

Lemma parseTokens_trim (piece : string) :
  parseTokens (VString (Tok.trim piece)) = parseTokens (VString piece).
Proof.
  rewrite !parseTokens_pieces. unfold Tok.trim.
  rewrite pieces_trimEnd by (apply space_is_token_sep || discriminate).
  apply pieces_trimStart, space_is_token_sep.
Qed.

(** The tokens of the pieces of a split at sentence separators, put end
    to end, are the tokens of the text that was split. *)
Lemma parseTokens_split (s : string) :
  ∀ (cur : string) (b : bool), (b = true → cur = "") →
    List.concat (List.map (fun piece => parseTokens (VString piece))
                          (Tok.split_go Tok.sentence_sep cur b s))
    = parseTokens (VString (cur +:+ s)).
Proof.
  induction s as [|c s IH]; intros cur b Hb.
  - simpl. now rewrite app_nil_r, app_empty_r.
  - simpl. destruct (Tok.sentence_sep c) eqn:Hc.
    + assert (Ht : Tok.token_sep c = true) by now apply sentence_sep_is_token_sep.
      assert (Hcut : parseTokens (VString (cur +:+ String c s))
                     = parseTokens (VString cur) ++ parseTokens (VString s)).
      { rewrite !parseTokens_pieces. apply pieces_app; [assumption | discriminate]. }
      rewrite Hcut. destruct b.
      * rewrite (Hb eq_refl). rewrite (IH "" true (fun _ => eq_refl)). reflexivity.
      * simpl. now rewrite (IH "" true (fun _ => eq_refl)).
    + rewrite (IH (cur +:+ String c "") false) by discriminate.
      now rewrite string_app_assoc.
Qed.

Lemma parseTokens_sentences (text : value) :
  parseTokens text
  = List.concat (List.map (fun s => parseTokens (VString s)) (parseSentences text)).
Proof.
  destruct text as [| | b | x | s |];
    try (rewrite parseTokens_not_string, parseSentences_not_string by discriminate;
         reflexivity).
  rewrite parseSentences_string. unfold Tok.split.
  pose proof (parseTokens_split s "" false) as Hsplit.
  change ("" +:+ s) with s in Hsplit. rewrite <- Hsplit by discriminate.
  clear Hsplit. induction (Tok.split_go Tok.sentence_sep "" false s) as [|piece l IH];
    [reflexivity |].
  simpl. destruct (Str.truthy (Tok.trim piece)) eqn:E; simpl; rewrite <- IH.
  - now rewrite parseTokens_trim.
  - apply truthy_false in E. rewrite <- (parseTokens_trim piece), E. reflexivity.
Qed.

(** The stemmed tokens of the whole text are those of its sentences, in
    order: the documents of the model put end to end. *)
Lemma parseTokensStemmed_documents (data : value) :
  parseTokensStemmed data = List.concat (corpusDocs (constructor data)).
Proof.
  unfold constructor; cbn [corpusDocs].
  rewrite parseTokensStemmed_map, (parseTokens_sentences data).
  induction (parseSentences data) as [|s l IH]; [reflexivity |].
  simpl. now rewrite List.map_app, IH, parseTokensStemmed_map.
Qed.

(** C7 (amended): in the stemmed class, [getTF] is the frequency of the
    stemmed, lower-cased token in the stemmed token stream of the whole
    source text: the number of its occurrences there over the length of
    that stream, and 0 for a text without tokens.  In every model a
    program can hold that stream is all the documents put end to end, so
    the frequency is not that of one sentence: in the text of two
    sentences below the token Cat has the frequency 2/5, where the two
    sentences alone give 1/3 and 1/2. *)
Theorem getTF_whole_text (m : NarrowMindModel) (t : string) :
  let stream := parseTokensStemmed (rawData m) in
  let stemmed := stemWord (Str.toLowerCase t) in
  (stream ≠ [] →
   getTF m t = INR (count stemmed stream) / INR (List.length stream))
  ∧ (stream = [] → getTF m t = 0)
  ∧ (∀ data, reachable data m → stream = List.concat (corpusDocs m))
  ∧ getTF (constructor (VString "The cats sat. Cats ran.")) "Cat" = 2 / 5
  ∧ corpusDocs (constructor (VString "The cats sat. Cats ran."))
    = [["the"; "cat"; "sat"]; ["cat"; "ran"]]
  ∧ calculateTF "cat" ["the"; "cat"; "sat"] = 1 / 3
  ∧ calculateTF "cat" ["cat"; "ran"] = 1 / 2.
Proof.
  cbv zeta. split; [|split; [|split]].
  - intros Hne. unfold getTF, calculateTF. rewrite occurrences_count.
    destruct (parseTokensStemmed (rawData m)); [congruence | reflexivity].
  - intros Hnil. unfold getTF. now rewrite Hnil.
  - intros data Hr.
    destruct (reachable_extends data m Hr) as (H1 & _ & _ & H4 & _).
    rewrite H1, H4. apply parseTokensStemmed_documents.
  - split; [unfold getTF, calculateTF, occurrences; simpl; lra |].
    split; [reflexivity |].
    split; unfold calculateTF, occurrences; simpl; lra.
Qed.

(** C7 as stated fails for the [getTF] of the superseded class: it looks
    the lower-cased, unstemmed token up among the raw tokens of the text.
    In the text Cats the token cats has, by the claim, the frequency 1. *)
Lemma getTF_superseded_counterexample :
  Unstemmed.getTF (constructor (VString "Cats")) "cats" = 0
  ∧ tokens (constructor (VString "Cats")) = ["Cats"]
  ∧ stemWord (Str.toLowerCase "cats") = "cat"
  ∧ parseTokensStemmed (VString "Cats") = ["cat"]
  ∧ INR (count (stemWord (Str.toLowerCase "cats")) (parseTokensStemmed (VString "Cats")))
    / INR (List.length (parseTokensStemmed (VString "Cats"))) = 1.
Proof.
  split; [unfold Unstemmed.getTF, calculateTF, occurrences; simpl; lra |].
  repeat split; try reflexivity.
  unfold count. simpl. lra.
Qed.

End WholeText.
